(** * The adaptive hybrid set of [task 7/main.cpp]

    A shallow embedding of the classes [SetImpl], [VectorSetImpl],
    [HashSetImpl] and [Set], followed by the properties of the
    specification that concern them.

    Modelling choices.
    - [int] values are only stored, compared and hashed, never computed
      with, so they are taken in [Z]; every statement below holds for all
      of [Z] and therefore for the 32-bit range.
    - [std::vector<int>] is [list Z], in storage order.
    - [std::unordered_set<int>] is [gset Z].  Its iteration order is left to
      the library in C++; here it is the order of [elements], and no
      statement below depends on which order that is.
    - [size_t] results are [nat]: they are container lengths.
    - [std::unique_ptr<SetImpl>] is exclusive ownership, hence a value of the
      sum type [SetImpl]; virtual dispatch is pattern matching and
      [dynamic_cast<T*>] is a test on the constructor.
    - [Set] is a reserved word of Rocq, the class is called [AdaptiveSet]. *)

From stdpp Require Import base decidable option list sets gmap fin_sets.
From stdpp Require Import strings pretty.
From Stdlib Require Import ZArith Lia Ascii.

(* set_solver and naive_solver clear hypotheses that are already gone *)
#[local] Set Warnings "-clear-no-such-hyp".

Local Open Scope Z_scope.

(** ** Representations *)

Inductive SetImpl : Type :=
| VectorSetImpl (data : list Z)
| HashSetImpl (data : gset Z).

(** The two targets of [dynamic_cast] in [Set::add] and [Set::remove]. *)
Inductive Kind : Type := Linear | Hashed.

#[global] Instance Kind_eq_dec : EqDecision Kind.
Proof. solve_decision. Defined.

Definition kind_of (r : SetImpl) : Kind :=
  match r with
  | VectorSetImpl _ => Linear
  | HashSetImpl _ => Hashed
  end.

(** [std::find(data.begin(), data.end(), value) != data.end()] *)
Fixpoint vec_find (value : Z) (data : list Z) : bool :=
  match data with
  | [] => false
  | x :: rest => if Z.eqb x value then true else vec_find value rest
  end.

(** [data.erase(std::remove(data.begin(), data.end(), value), data.end())] *)
Fixpoint vec_erase_remove (value : Z) (data : list Z) : list Z :=
  match data with
  | [] => []
  | x :: rest =>
      if Z.eqb x value then vec_erase_remove value rest
      else x :: vec_erase_remove value rest
  end.

Definition VectorSetImpl_add (data : list Z) (value : Z) : list Z :=
  if vec_find value data then data else data ++ [value].

Definition VectorSetImpl_remove (data : list Z) (value : Z) : list Z :=
  vec_erase_remove value data.

Definition VectorSetImpl_contains (data : list Z) (value : Z) : bool :=
  vec_find value data.

Definition HashSetImpl_add (data : gset Z) (value : Z) : gset Z :=
  {[ value ]} ∪ data.

Definition HashSetImpl_remove (data : gset Z) (value : Z) : gset Z :=
  data ∖ {[ value ]}.

Definition HashSetImpl_contains (data : gset Z) (value : Z) : bool :=
  bool_decide (value ∈ data).

(** Virtual members of [SetImpl]. *)

Definition SetImpl_add (r : SetImpl) (value : Z) : SetImpl :=
  match r with
  | VectorSetImpl data => VectorSetImpl (VectorSetImpl_add data value)
  | HashSetImpl data => HashSetImpl (HashSetImpl_add data value)
  end.

Definition SetImpl_remove (r : SetImpl) (value : Z) : SetImpl :=
  match r with
  | VectorSetImpl data => VectorSetImpl (VectorSetImpl_remove data value)
  | HashSetImpl data => HashSetImpl (HashSetImpl_remove data value)
  end.

Definition SetImpl_contains (r : SetImpl) (value : Z) : bool :=
  match r with
  | VectorSetImpl data => VectorSetImpl_contains data value
  | HashSetImpl data => HashSetImpl_contains data value
  end.

Definition SetImpl_size (r : SetImpl) : nat :=
  match r with
  | VectorSetImpl data => length data
  | HashSetImpl data => size data
  end.

Definition SetImpl_clone (r : SetImpl) : SetImpl :=
  match r with
  | VectorSetImpl data => VectorSetImpl data
  | HashSetImpl data => HashSetImpl data
  end.

Definition SetImpl_get_elements (r : SetImpl) : list Z :=
  match r with
  | VectorSetImpl data => data
  | HashSetImpl data => elements data
  end.

(** [VectorSetImpl::union_with]: the loop tests [this->contains(val)], the
    receiver, not the vector under construction. *)
Definition VectorSetImpl_union_with (data : list Z) (other : SetImpl) : list Z :=
  fold_left
    (fun result val =>
       if negb (VectorSetImpl_contains data val) then result ++ [val] else result)
    (SetImpl_get_elements other) data.

Definition VectorSetImpl_intersection_with (data : list Z) (other : SetImpl) : list Z :=
  fold_left
    (fun result val =>
       if SetImpl_contains other val then result ++ [val] else result)
    data [].

Definition HashSetImpl_union_with (data : gset Z) (other : SetImpl) : gset Z :=
  fold_left (fun result val => {[ val ]} ∪ result)
            (SetImpl_get_elements other) data.

Definition HashSetImpl_intersection_with (data : gset Z) (other : SetImpl) : gset Z :=
  fold_left
    (fun result val =>
       if SetImpl_contains other val then {[ val ]} ∪ result else result)
    (elements data) ∅.

Definition SetImpl_union_with (r other : SetImpl) : SetImpl :=
  match r with
  | VectorSetImpl data => VectorSetImpl (VectorSetImpl_union_with data other)
  | HashSetImpl data => HashSetImpl (HashSetImpl_union_with data other)
  end.

Definition SetImpl_intersection_with (r other : SetImpl) : SetImpl :=
  match r with
  | VectorSetImpl data => VectorSetImpl (VectorSetImpl_intersection_with data other)
  | HashSetImpl data => HashSetImpl (HashSetImpl_intersection_with data other)
  end.

(** ** The class [Set] *)

Record AdaptiveSet : Type := MkSet { impl : SetImpl }.

Definition SWITCH_THRESHOLD : nat := 20.

(** [Set()] *)
Definition Set_new : AdaptiveSet := MkSet (VectorSetImpl []).

Definition switch_to_hash (s : AdaptiveSet) : AdaptiveSet :=
  let elements := SetImpl_get_elements (impl s) in
  MkSet (fold_left SetImpl_add elements (HashSetImpl ∅)).

Definition switch_to_vector (s : AdaptiveSet) : AdaptiveSet :=
  let elements := SetImpl_get_elements (impl s) in
  MkSet (fold_left SetImpl_add elements (VectorSetImpl [])).

Definition is_vector (r : SetImpl) : bool :=
  match r with VectorSetImpl _ => true | HashSetImpl _ => false end.

Definition is_hash (r : SetImpl) : bool :=
  match r with VectorSetImpl _ => false | HashSetImpl _ => true end.

Definition Set_add (s : AdaptiveSet) (value : Z) : AdaptiveSet :=
  let s1 :=
    if (SWITCH_THRESHOLD <=? SetImpl_size (impl s))%nat && is_vector (impl s)
    then switch_to_hash s else s in
  MkSet (SetImpl_add (impl s1) value).

Definition Set_remove (s : AdaptiveSet) (value : Z) : AdaptiveSet :=
  let s1 := MkSet (SetImpl_remove (impl s) value) in
  if (SetImpl_size (impl s1) <=? SWITCH_THRESHOLD)%nat && is_hash (impl s1)
  then switch_to_vector s1 else s1.

Definition Set_contains (s : AdaptiveSet) (value : Z) : bool :=
  SetImpl_contains (impl s) value.

Definition Set_size (s : AdaptiveSet) : nat := SetImpl_size (impl s).

Definition Set_kind (s : AdaptiveSet) : Kind := kind_of (impl s).

Definition Set_union_with (s other : AdaptiveSet) : AdaptiveSet :=
  let result := Set_new in
  MkSet (SetImpl_union_with (impl s) (impl other)).

Definition Set_intersection_with (s other : AdaptiveSet) : AdaptiveSet :=
  let result := Set_new in
  MkSet (SetImpl_intersection_with (impl s) (impl other)).

(** The loops of [main]: [for (i...) s.add(i)] and [for (i...) s.remove(i)]. *)
Definition Set_add_all (s : AdaptiveSet) (values : list Z) : AdaptiveSet :=
  fold_left Set_add values s.

Definition Set_remove_all (s : AdaptiveSet) (values : list Z) : AdaptiveSet :=
  fold_left Set_remove values s.

(** The values [0 .. n-1] of the loops of [main]. *)
Definition upto (n : nat) : list Z := map Z.of_nat (seq 0 n).

(** Sequences of mutating calls on one object. *)
Inductive Op : Type := OpAdd (value : Z) | OpRemove (value : Z).

Definition Set_apply (s : AdaptiveSet) (o : Op) : AdaptiveSet :=
  match o with
  | OpAdd value => Set_add s value
  | OpRemove value => Set_remove s value
  end.

Definition Set_run (s : AdaptiveSet) (ops : list Op) : AdaptiveSet :=
  fold_left Set_apply ops s.

(** ** Abstraction to mathematical sets *)

(** The element set of a representation, read off its storage. *)
Definition elems (r : SetImpl) : gset Z :=
  match r with
  | VectorSetImpl data => list_to_set data
  | HashSetImpl data => data
  end.

Definition Set_elems (s : AdaptiveSet) : gset Z := elems (impl s).

(** The representation invariant of the specification: the stored
    collection has no repeated element, and [size()] is the number of
    distinct elements. *)
Definition rep_inv (r : SetImpl) : Prop :=
  NoDup (SetImpl_get_elements r) ∧
  SetImpl_size r = size (list_to_set (SetImpl_get_elements r) : gset Z).

(** The reference model: [add] is insertion, [remove] is deletion. *)
Definition ref_apply (X : gset Z) (o : Op) : gset Z :=
  match o with
  | OpAdd value => X ∪ {[ value ]}
  | OpRemove value => X ∖ {[ value ]}
  end.

Definition ref_run (X : gset Z) (ops : list Op) : gset Z :=
  fold_left ref_apply ops X.

(** The same reference, read off the calls themselves: [v] is a member
    when the last call that names [v] is an [add]; [b] answers for the
    calls before [ops]. *)
Definition last_call_adds (v : Z) (b : bool) (ops : list Op) : bool :=
  fold_left
    (fun acc o =>
       match o with
       | OpAdd value => if value =? v then true else acc
       | OpRemove value => if value =? v then false else acc
       end)
    ops b.

(** ** The runs of [main] *)

(** States after each call of the loop [for (i...) { s.add(i); s.print(); }]. *)
Fixpoint Set_add_trace (s : AdaptiveSet) (values : list Z) : list AdaptiveSet :=
  match values with
  | [] => []
  | v :: rest => let s' := Set_add s v in s' :: Set_add_trace s' rest
  end.

(** Number of changes of variant along a run that starts in variant [k]. *)
Fixpoint count_switches (k : Kind) (ks : list Kind) : nat :=
  match ks with
  | [] => 0
  | k' :: rest => ((if decide (k = k') then 0 else 1) + count_switches k' rest)%nat
  end.

(** [s1] and [s2] of [main], after their insertion loops. *)
Definition main_s1 : AdaptiveSet := Set_add_all Set_new (upto 25).
Definition main_s2 : AdaptiveSet := Set_add_all Set_new [10; 20; 25; 30].

(** ** The band of the switching policy *)

(** A set built by [add] and [remove] alone is never on the wrong side of
    the threshold for its variant: Linear-active means at most
    [SWITCH_THRESHOLD] elements, Hashed-active means at least that many. *)
Definition policy_agrees (s : AdaptiveSet) : bool :=
  match Set_kind s with
  | Linear => (Set_size s <=? SWITCH_THRESHOLD)%nat
  | Hashed => (SWITCH_THRESHOLD <=? Set_size s)%nat
  end.

(** ** Sets built through the public interface *)

(** The sets a program can build through the public interface of [Set]. *)
Inductive reachable : AdaptiveSet → Prop :=
| reachable_new : reachable Set_new
| reachable_add s v : reachable s → reachable (Set_add s v)
| reachable_remove s v : reachable s → reachable (Set_remove s v)
| reachable_union a b :
    reachable a → reachable b → reachable (Set_union_with a b)
| reachable_intersection a b :
    reachable a → reachable b → reachable (Set_intersection_with a b).

(** ** Objects in a store *)

(** [Set] objects are named by addresses.  A member function receives
    [this] and its reference arguments as addresses and runs on the store
    of all live objects; it fails on an address that names no object. *)
Definition M (A : Type) : Type :=
  gmap nat AdaptiveSet → option (A * gmap nat AdaptiveSet).

#[global] Instance M_ret : MRet M := fun A x σ => Some (x, σ).

#[global] Instance M_bind : MBind M := fun A B f m σ =>
  match m σ with
  | Some (x, σ') => f x σ'
  | None => None
  end.

Definition read (l : nat) : M AdaptiveSet :=
  fun σ => match σ !! l with Some s => Some (s, σ) | None => None end.

Definition write (l : nat) (s : AdaptiveSet) : M unit :=
  fun σ => match σ !! l with Some _ => Some (tt, <[l:=s]> σ) | None => None end.

(** A new object, at an address that names no live object. *)
Definition alloc (s : AdaptiveSet) : M nat :=
  fun σ => let l := fresh (dom σ) in Some (l, <[l:=s]> σ).

Definition Set_add_at (this : nat) (value : Z) : M unit :=
  s ← read this; write this (Set_add s value).

Definition Set_remove_at (this : nat) (value : Z) : M unit :=
  s ← read this; write this (Set_remove s value).

Definition Set_union_with_at (this other : nat) : M nat :=
  result ← alloc Set_new;
  a ← read this;
  b ← read other;
  write result (MkSet (SetImpl_union_with (impl a) (impl b)));;
  mret result.

Definition Set_intersection_with_at (this other : nat) : M nat :=
  result ← alloc Set_new;
  a ← read this;
  b ← read other;
  write result (MkSet (SetImpl_intersection_with (impl a) (impl b)));;
  mret result.

(** What a call that builds a new object from two operands leaves behind:
    the new object at an address that was free, every other address as it
    was. *)
Definition builds_new (σ : gmap nat AdaptiveSet) (r : option (nat * gmap nat AdaptiveSet))
    (new : AdaptiveSet) : Prop :=
  ∃ result σ',
    r = Some (result, σ')
    ∧ σ !! result = None
    ∧ σ' !! result = Some new
    ∧ ∀ l, l ≠ result → σ' !! l = σ !! l.

(** ** Runs on one representation *)

(** The same calls on a representation that never migrates. *)
Definition SetImpl_apply (r : SetImpl) (o : Op) : SetImpl :=
  match o with
  | OpAdd value => SetImpl_add r value
  | OpRemove value => SetImpl_remove r value
  end.

Definition SetImpl_run (r : SetImpl) (ops : list Op) : SetImpl :=
  fold_left SetImpl_apply ops r.

(** States after each call of a sequence, in order. *)
Fixpoint Set_trace (s : AdaptiveSet) (ops : list Op) : list AdaptiveSet :=
  match ops with
  | [] => []
  | o :: rest => let s' := Set_apply s o in s' :: Set_trace s' rest
  end.

Definition is_add (o : Op) : bool :=
  match o with OpAdd _ => true | OpRemove _ => false end.

Definition is_remove (o : Op) : bool :=
  match o with OpAdd _ => false | OpRemove _ => true end.

(** ** Printing *)

(** What [print] sends to [std::cout], as the string written.  An [int] is
    written in decimal, with a leading [-] when negative. *)
Definition endl : string := String (Ascii.ascii_of_nat 10) "".

(** [for (int v : data) std::cout << v << " ";] *)
Definition print_elements (values : list Z) : string :=
  fold_left (fun out v => out +:+ pretty v +:+ " ") values "".

Definition VectorSetImpl_print (data : list Z) : string :=
  "VectorSet[ " +:+ print_elements data +:+ "]" +:+ endl.

Definition HashSetImpl_print (data : gset Z) : string :=
  "HashSet{ " +:+ print_elements (elements data) +:+ "}" +:+ endl.

Definition SetImpl_print (r : SetImpl) : string :=
  match r with
  | VectorSetImpl data => VectorSetImpl_print data
  | HashSetImpl data => HashSetImpl_print data
  end.

Definition Set_print (s : AdaptiveSet) : string := SetImpl_print (impl s).

(** The characters that the decimal form of an [int] is made of are digits
    and [-]: none is the separator or a closing bracket of [print]. *)
Definition plain_char (c : ascii) : Prop :=
  c ≠ " "%char ∧ c ≠ "]"%char ∧ c ≠ "}"%char.

Fixpoint plain (s : string) : Prop :=
  match s with
  | EmptyString => True
  | String c rest => plain_char c ∧ plain rest
  end.

(** * Properties *)

(** ** Lemmas on the vector primitives *)

Lemma vec_find_true value data : vec_find value data = true ↔ value ∈ data.
Proof.
  induction data as [|x rest IH]; simpl.
  - split; [discriminate | intros H; inversion H].
  - destruct (Z.eqb_spec x value) as [->|Hne].
    + split; [intros _; left | done].
    + rewrite IH. split; [by right |].
      intros [E|H]%elem_of_cons; [congruence | done].
Qed.

Lemma vec_find_false value data : vec_find value data = false ↔ value ∉ data.
Proof.
  rewrite <- vec_find_true. destruct (vec_find value data); split; congruence.
Qed.

Lemma vec_find_decide value data :
  vec_find value data = bool_decide (value ∈ data).
Proof.
  destruct (vec_find value data) eqn:E; symmetry.
  - apply bool_decide_eq_true, vec_find_true, E.
  - apply bool_decide_eq_false, vec_find_false, E.
Qed.

Lemma elem_of_vec_erase_remove value data x :
  x ∈ vec_erase_remove value data ↔ x ∈ data ∧ x ≠ value.
Proof.
  induction data as [|y rest IH]; simpl.
  - split; [intros H; inversion H | intros [H _]; inversion H].
  - destruct (Z.eqb_spec y value) as [->|Hne].
    + rewrite IH, elem_of_cons. naive_solver.
    + rewrite !elem_of_cons, IH. naive_solver.
Qed.

Lemma NoDup_vec_erase_remove value data :
  NoDup data → NoDup (vec_erase_remove value data).
Proof.
  induction 1 as [|y rest Hy Hnd IH]; simpl; [constructor |].
  destruct (Z.eqb_spec y value); [done |].
  constructor; [| done].
  rewrite elem_of_vec_erase_remove. tauto.
Qed.

Lemma vec_erase_remove_absent value data :
  value ∉ data → vec_erase_remove value data = data.
Proof.
  induction data as [|y rest IH]; simpl; [done |].
  intros [Hne Hrest]%not_elem_of_cons.
  destruct (Z.eqb_spec y value); [congruence |].
  by rewrite IH.
Qed.

Lemma length_vec_erase_remove_present value data :
  NoDup data → value ∈ data →
  S (length (vec_erase_remove value data)) = length data.
Proof.
  induction 1 as [|y rest Hy Hnd IH]; simpl.
  - intros H; inversion H.
  - intros Hin. destruct (Z.eqb_spec y value) as [->|Hne].
    + by rewrite vec_erase_remove_absent.
    + simpl. f_equal. apply IH.
      apply elem_of_cons in Hin as [E|Hin]; [congruence | done].
Qed.

(** The loop shapes of the source, in closed form. *)

Section loops.
Variable p : Z → bool.

Lemma fold_push_if (l acc : list Z) :
  fold_left (fun result val => if p val then result ++ [val] else result) l acc
  = acc ++ List.filter p l.
Proof.
  revert acc. induction l as [|x l IH]; intros acc; simpl.
  - by rewrite app_nil_r.
  - rewrite IH. destruct (p x); [| done].
    by rewrite <- app_assoc.
Qed.

Lemma fold_insert_if (l : list Z) (acc : gset Z) :
  fold_left (fun result val => if p val then {[ val ]} ∪ result else result) l acc
  = list_to_set (List.filter p l) ∪ acc.
Proof.
  revert acc. induction l as [|x l IH]; intros acc; simpl.
  - set_solver.
  - rewrite IH. destruct (p x); set_solver.
Qed.

Lemma elem_of_List_filter (l : list Z) x :
  x ∈ List.filter p l ↔ x ∈ l ∧ p x = true.
Proof. rewrite !list_elem_of_In. apply filter_In. Qed.

Lemma NoDup_List_filter (l : list Z) : NoDup l → NoDup (List.filter p l).
Proof. rewrite !NoDup_ListNoDup. apply List.NoDup_filter. Qed.

End loops.

Lemma fold_insert (l : list Z) (acc : gset Z) :
  fold_left (fun result val => {[ val ]} ∪ result) l acc = list_to_set l ∪ acc.
Proof.
  revert acc. induction l as [|x l IH]; intros acc; simpl.
  - set_solver.
  - rewrite IH. set_solver.
Qed.

(** ** What each representation operation does to the element set *)

Lemma elems_get_elements r : list_to_set (SetImpl_get_elements r) = elems r.
Proof. destruct r as [data|data]; simpl; [done | apply list_to_set_elements_L]. Qed.

Lemma elem_of_get_elements r v : v ∈ SetImpl_get_elements r ↔ v ∈ elems r.
Proof. rewrite <- elems_get_elements. by rewrite elem_of_list_to_set. Qed.

Lemma contains_elems r v : SetImpl_contains r v = bool_decide (v ∈ elems r).
Proof.
  destruct r as [data|data]; simpl; [| done].
  unfold VectorSetImpl_contains. rewrite vec_find_decide.
  apply bool_decide_ext. by rewrite elem_of_list_to_set.
Qed.

Lemma contains_true r v : SetImpl_contains r v = true ↔ v ∈ elems r.
Proof. rewrite contains_elems. apply bool_decide_eq_true. Qed.

Lemma rep_inv_vector data : rep_inv (VectorSetImpl data) ↔ NoDup data.
Proof.
  unfold rep_inv; simpl. split; [by intros [H _] |].
  intros H. split; [done |]. symmetry. by apply size_list_to_set.
Qed.

Lemma rep_inv_hash data : rep_inv (HashSetImpl data).
Proof.
  unfold rep_inv; simpl. split; [apply NoDup_elements |].
  by rewrite list_to_set_elements_L.
Qed.

Lemma rep_inv_NoDup r : rep_inv r → NoDup (SetImpl_get_elements r).
Proof. by intros [H _]. Qed.

Lemma rep_inv_size r : rep_inv r → SetImpl_size r = size (elems r).
Proof. intros [_ H]. by rewrite H, elems_get_elements. Qed.

Lemma elems_add r v : elems (SetImpl_add r v) = elems r ∪ {[ v ]}.
Proof.
  destruct r as [data|data]; simpl.
  - unfold VectorSetImpl_add. destruct (vec_find v data) eqn:E.
    + apply vec_find_true in E. set_solver.
    + rewrite list_to_set_app_L. set_solver.
  - unfold HashSetImpl_add. set_solver.
Qed.

Lemma rep_inv_add r v : rep_inv r → rep_inv (SetImpl_add r v).
Proof.
  destruct r as [data|data]; simpl; [| intros _; apply rep_inv_hash].
  rewrite !rep_inv_vector. intros Hnd.
  unfold VectorSetImpl_add. destruct (vec_find v data) eqn:E; [done |].
  apply vec_find_false in E.
  apply NoDup_app. split; [done |]. split; [| apply NoDup_singleton].
  intros x Hx ->%list_elem_of_singleton. done.
Qed.

Lemma elems_remove r v : elems (SetImpl_remove r v) = elems r ∖ {[ v ]}.
Proof.
  destruct r as [data|data]; simpl; [| done].
  unfold VectorSetImpl_remove. apply set_eq. intros x.
  rewrite elem_of_list_to_set, elem_of_vec_erase_remove.
  rewrite elem_of_difference, elem_of_list_to_set, elem_of_singleton. done.
Qed.

Lemma rep_inv_remove r v : rep_inv r → rep_inv (SetImpl_remove r v).
Proof.
  destruct r as [data|data]; simpl; [| intros _; apply rep_inv_hash].
  rewrite !rep_inv_vector. apply NoDup_vec_erase_remove.
Qed.

Lemma kind_of_add r v : kind_of (SetImpl_add r v) = kind_of r.
Proof. by destruct r. Qed.

Lemma kind_of_remove r v : kind_of (SetImpl_remove r v) = kind_of r.
Proof. by destruct r. Qed.

Lemma VectorSetImpl_union_with_eq data other :
  VectorSetImpl_union_with data other
  = data ++ List.filter (fun val => negb (VectorSetImpl_contains data val))
                        (SetImpl_get_elements other).
Proof. unfold VectorSetImpl_union_with. apply fold_push_if. Qed.

Lemma VectorSetImpl_intersection_with_eq data other :
  VectorSetImpl_intersection_with data other
  = List.filter (SetImpl_contains other) data.
Proof. unfold VectorSetImpl_intersection_with. by rewrite fold_push_if. Qed.

Lemma HashSetImpl_union_with_eq data other :
  HashSetImpl_union_with data other = data ∪ elems other.
Proof.
  unfold HashSetImpl_union_with.
  rewrite fold_insert, elems_get_elements. set_solver.
Qed.

Lemma HashSetImpl_intersection_with_eq data other :
  HashSetImpl_intersection_with data other = data ∩ elems other.
Proof.
  unfold HashSetImpl_intersection_with. rewrite fold_insert_if.
  apply set_eq. intros x.
  rewrite elem_of_union, elem_of_list_to_set, elem_of_List_filter.
  rewrite elem_of_elements, contains_true, elem_of_intersection.
  set_solver.
Qed.

Lemma elems_union_with r other :
  elems (SetImpl_union_with r other) = elems r ∪ elems other.
Proof.
  destruct r as [data|data]; simpl; [| apply HashSetImpl_union_with_eq].
  rewrite VectorSetImpl_union_with_eq. apply set_eq. intros x.
  rewrite list_to_set_app_L, !elem_of_union, !elem_of_list_to_set.
  rewrite elem_of_List_filter, elem_of_get_elements.
  unfold VectorSetImpl_contains. rewrite negb_true_iff, vec_find_false.
  destruct (decide (x ∈ data)); tauto.
Qed.

Lemma elems_intersection_with r other :
  elems (SetImpl_intersection_with r other) = elems r ∩ elems other.
Proof.
  destruct r as [data|data]; simpl; [| apply HashSetImpl_intersection_with_eq].
  rewrite VectorSetImpl_intersection_with_eq. apply set_eq. intros x.
  rewrite elem_of_intersection, !elem_of_list_to_set.
  by rewrite elem_of_List_filter, contains_true.
Qed.

Lemma rep_inv_union_with r other :
  rep_inv r → rep_inv other → rep_inv (SetImpl_union_with r other).
Proof.
  destruct r as [data|data]; simpl; [| intros _ _; apply rep_inv_hash].
  rewrite !rep_inv_vector. intros Hnd Hother%rep_inv_NoDup.
  rewrite VectorSetImpl_union_with_eq. apply NoDup_app.
  split; [done |]. split; [| by apply NoDup_List_filter].
  intros x Hx [_ Hc]%elem_of_List_filter.
  unfold VectorSetImpl_contains in Hc.
  apply negb_true_iff, vec_find_false in Hc. done.
Qed.

Lemma rep_inv_intersection_with r other :
  rep_inv r → rep_inv (SetImpl_intersection_with r other).
Proof.
  destruct r as [data|data]; simpl; [| intros _; apply rep_inv_hash].
  rewrite !rep_inv_vector, VectorSetImpl_intersection_with_eq.
  apply NoDup_List_filter.
Qed.

Lemma kind_of_union_with r other :
  kind_of (SetImpl_union_with r other) = kind_of r.
Proof. by destruct r. Qed.

Lemma kind_of_intersection_with r other :
  kind_of (SetImpl_intersection_with r other) = kind_of r.
Proof. by destruct r. Qed.

(** ** Migration *)

Lemma fold_add_hash (l : list Z) (X : gset Z) :
  fold_left SetImpl_add l (HashSetImpl X) = HashSetImpl (X ∪ list_to_set l).
Proof.
  revert X. induction l as [|x l IH]; intros X; simpl.
  - f_equal. set_solver.
  - rewrite IH. f_equal. unfold HashSetImpl_add. set_solver.
Qed.

Lemma fold_add_vector (l acc : list Z) :
  ∃ data, fold_left SetImpl_add l (VectorSetImpl acc) = VectorSetImpl data
          ∧ (list_to_set data : gset Z) = list_to_set acc ∪ list_to_set l
          ∧ (NoDup acc → NoDup data)
          ∧ (NoDup (acc ++ l) → data = acc ++ l).
Proof.
  revert acc. induction l as [|x l IH]; intros acc; simpl.
  - exists acc. rewrite app_nil_r. repeat split; [set_solver | done..].
  - destruct (IH (VectorSetImpl_add acc x)) as (data & -> & Hset & Hnd & Heq).
    exists data. split; [done |].
    pose proof (elems_add (VectorSetImpl acc) x) as Ha. simpl in Ha.
    pose proof (rep_inv_add (VectorSetImpl acc) x) as Hi. simpl in Hi.
    rewrite !rep_inv_vector in Hi.
    split; [rewrite Hset, Ha; set_solver |].
    split; [by intros ?; apply Hnd, Hi |].
    intros Hall. unfold VectorSetImpl_add in Heq.
    assert (vec_find x acc = false) as E.
    { apply vec_find_false. apply NoDup_app in Hall as (_ & Hdisj & _).
      intros Hin. apply (Hdisj x Hin). left. }
    rewrite E in Heq. rewrite <- app_assoc in Heq. simpl in Heq.
    by apply Heq.
Qed.

Lemma switch_to_hash_impl s :
  impl (switch_to_hash s) = HashSetImpl (Set_elems s).
Proof.
  unfold switch_to_hash, Set_elems; simpl.
  rewrite fold_add_hash, elems_get_elements. f_equal. set_solver.
Qed.

Lemma switch_to_vector_kind s : Set_kind (switch_to_vector s) = Linear.
Proof.
  unfold switch_to_vector, Set_kind; simpl.
  by destruct (fold_add_vector (SetImpl_get_elements (impl s)) [])
    as (data & -> & _).
Qed.

Lemma switch_to_vector_elems s : Set_elems (switch_to_vector s) = Set_elems s.
Proof.
  unfold switch_to_vector, Set_elems; simpl.
  destruct (fold_add_vector (SetImpl_get_elements (impl s)) [])
    as (data & -> & Hset & _).
  simpl. rewrite Hset, elems_get_elements. set_solver.
Qed.

Lemma switch_to_vector_rep_inv s : rep_inv (impl (switch_to_vector s)).
Proof.
  unfold switch_to_vector; simpl.
  destruct (fold_add_vector (SetImpl_get_elements (impl s)) [])
    as (data & -> & _ & Hnd & _).
  apply rep_inv_vector, Hnd. constructor.
Qed.

(** On a representation that satisfies the invariant, the vector built by
    [switch_to_vector] is the enumeration itself, in enumeration order. *)
Lemma switch_to_vector_impl s :
  rep_inv (impl s) →
  impl (switch_to_vector s) = VectorSetImpl (SetImpl_get_elements (impl s)).
Proof.
  intros Hnd%rep_inv_NoDup. unfold switch_to_vector; simpl.
  destruct (fold_add_vector (SetImpl_get_elements (impl s)) [])
    as (data & -> & _ & _ & Heq).
  f_equal. by apply Heq.
Qed.

(** ** [Set::add] and [Set::remove] on element sets *)

Lemma Set_add_elems s v : Set_elems (Set_add s v) = Set_elems s ∪ {[ v ]}.
Proof.
  unfold Set_add, Set_elems; simpl.
  destruct (_ && _); rewrite elems_add; [| done].
  by rewrite switch_to_hash_impl.
Qed.

Lemma Set_add_rep_inv s v : rep_inv (impl s) → rep_inv (impl (Set_add s v)).
Proof.
  intros Hs. unfold Set_add; simpl.
  destruct (_ && _); apply rep_inv_add; [| done].
  rewrite switch_to_hash_impl. apply rep_inv_hash.
Qed.

Lemma Set_remove_elems s v : Set_elems (Set_remove s v) = Set_elems s ∖ {[ v ]}.
Proof.
  unfold Set_remove. destruct (_ && _).
  - rewrite switch_to_vector_elems. apply elems_remove.
  - apply elems_remove.
Qed.

Lemma Set_remove_rep_inv s v :
  rep_inv (impl s) → rep_inv (impl (Set_remove s v)).
Proof.
  intros Hs. unfold Set_remove. destruct (_ && _).
  - apply switch_to_vector_rep_inv.
  - simpl. by apply rep_inv_remove.
Qed.

Lemma Set_contains_elems s v : Set_contains s v = bool_decide (v ∈ Set_elems s).
Proof. apply contains_elems. Qed.

Lemma Set_size_elems s : rep_inv (impl s) → Set_size s = size (Set_elems s).
Proof. apply rep_inv_size. Qed.

Lemma Set_new_rep_inv : rep_inv (impl Set_new).
Proof. apply rep_inv_vector. constructor. Qed.

Lemma Set_run_elems s ops :
  Set_elems (Set_run s ops) = ref_run (Set_elems s) ops.
Proof.
  revert s. induction ops as [|o ops IH]; intros s; simpl; [done |].
  unfold Set_run, ref_run in *; simpl. rewrite IH. f_equal.
  destruct o; simpl; [apply Set_add_elems | apply Set_remove_elems].
Qed.

Lemma Set_run_rep_inv s ops :
  rep_inv (impl s) → rep_inv (impl (Set_run s ops)).
Proof.
  revert s. induction ops as [|o ops IH]; intros s Hs; simpl; [done |].
  apply IH. destruct o; simpl; [by apply Set_add_rep_inv | by apply Set_remove_rep_inv].
Qed.

(** ** Membership against the reference model *)

Lemma ref_run_last_call (X : gset Z) ops v :
  bool_decide (v ∈ ref_run X ops) = last_call_adds v (bool_decide (v ∈ X)) ops.
Proof.
  revert X. induction ops as [|o ops IH]; intros X; simpl; [done |].
  unfold ref_run, last_call_adds in *; simpl. rewrite IH. f_equal.
  destruct o as [x|x]; simpl; destruct (Z.eqb_spec x v) as [->|Hne].
  - apply bool_decide_eq_true. set_solver.
  - apply bool_decide_ext. set_solver.
  - apply bool_decide_eq_false. set_solver.
  - apply bool_decide_ext. set_solver.
Qed.

(** C4: for every finite sequence of add/remove calls on a newly created
    set and every integer [v], [contains(v)] afterwards is membership of
    [v] in the reference set (add is insertion, remove is deletion), and
    [size()] is the cardinality of that reference set.  Membership in the
    reference set is also what the calls say: the last call that names [v]
    is an [add]. *)
Theorem C4_membership_matches_reference (ops : list Op) (v : Z) :
  Set_contains (Set_run Set_new ops) v = bool_decide (v ∈ ref_run ∅ ops)
  ∧ Set_contains (Set_run Set_new ops) v = last_call_adds v false ops
  ∧ Set_size (Set_run Set_new ops) = size (ref_run ∅ ops).
Proof.
  pose proof (Set_run_elems Set_new ops) as He.
  pose proof (Set_run_rep_inv Set_new ops Set_new_rep_inv) as Hi.
  change (Set_elems Set_new) with (∅ : gset Z) in He.
  assert (Set_contains (Set_run Set_new ops) v = bool_decide (v ∈ ref_run ∅ ops))
    as Hc by by rewrite Set_contains_elems, He.
  split; [done |]. split.
  - by rewrite Hc, ref_run_last_call.
  - by rewrite Set_size_elems, He.
Qed.

(** ** Up-migration in the insertion loop *)

(** C1, as stated, fails: right after the insertion of element index 19
    (the 20th element, size 20) the set is still Linear-active, not
    Hashed-active.  [Set::add] tests [size() >= 20] before it inserts, and
    the size it sees on that call is 19. *)
Lemma C1_still_linear_after_20th_insertion :
  Set_size (Set_add_all Set_new (upto 20)) = 20%nat
  ∧ Set_kind (Set_add_all Set_new (upto 20)) = Linear
  ∧ Set_kind (Set_add_all Set_new (upto 20)) ≠ Hashed.
Proof. vm_compute. repeat split. discriminate. Qed.

(** C1, amended: inserting 0..24 one at a time into an empty set changes
    the variant exactly once.  The set stays Linear-active through the
    insertion of element index 19 (size 20, all 20 elements present) and
    becomes Hashed-active on the insertion of element index 20 (the 21st
    element, size 21), with all 21 elements present; it is Hashed-active
    after each later insertion. *)
Theorem C1_up_migration_on_21st_insertion :
  map Set_kind (Set_add_trace Set_new (upto 25))
    = replicate 20 Linear ++ replicate 5 Hashed
  ∧ count_switches Linear (map Set_kind (Set_add_trace Set_new (upto 25))) = 1%nat
  ∧ (let s20 := Set_add_all Set_new (upto 20) in
     Set_kind s20 = Linear ∧ Set_size s20 = 20%nat
     ∧ Forall (fun v => Set_contains s20 v = true) (upto 20))
  ∧ (let s21 := Set_add_all Set_new (upto 21) in
     Set_kind s21 = Hashed ∧ Set_size s21 = 21%nat
     ∧ Forall (fun v => Set_contains s21 v = true) (upto 21)).
Proof.
  split; [by vm_compute |]. split; [by vm_compute |].
  split; (split; [by vm_compute |]); (split; [by vm_compute |]);
    apply (bool_decide_unpack _); by vm_compute.
Qed.

(** ** Which variant is active after [add] and [remove] *)

Lemma Set_add_kind s v :
  Set_kind (Set_add s v)
  = if (SWITCH_THRESHOLD <=? Set_size s)%nat then Hashed else Set_kind s.
Proof.
  unfold Set_add, Set_kind, Set_size. cbv zeta.
  change (impl (MkSet ?r)) with r. rewrite kind_of_add.
  destruct (SWITCH_THRESHOLD <=? SetImpl_size (impl s))%nat; [| done].
  destruct (is_vector (impl s)) eqn:E; cbn [andb].
  - by rewrite switch_to_hash_impl.
  - by destruct (impl s).
Qed.

Lemma Set_remove_kind s v :
  Set_kind (Set_remove s v)
  = if (SetImpl_size (SetImpl_remove (impl s) v) <=? SWITCH_THRESHOLD)%nat
    then Linear else Set_kind s.
Proof.
  unfold Set_remove; simpl.
  destruct (SetImpl_size (SetImpl_remove (impl s) v) <=? SWITCH_THRESHOLD)%nat;
    simpl.
  - destruct (impl s) as [data|data]; simpl; [done |].
    apply switch_to_vector_kind.
  - destruct (impl s) as [data|data] eqn:E; unfold Set_kind; simpl;
      by rewrite E.
Qed.

Lemma size_insert_bounds (X : gset Z) v :
  (size X ≤ size (X ∪ {[ v ]}) ≤ S (size X))%nat.
Proof.
  split; [apply subseteq_size; set_solver |].
  destruct (decide (v ∈ X)) as [Hin|Hout].
  - replace (X ∪ {[ v ]}) with X by set_solver. lia.
  - rewrite size_union by set_solver. rewrite size_singleton. lia.
Qed.

Lemma size_delete_bounds (X : gset Z) v :
  (size (X ∖ {[ v ]}) ≤ size X ≤ S (size (X ∖ {[ v ]})))%nat.
Proof.
  split; [apply subseteq_size; set_solver |].
  destruct (decide (v ∈ X)) as [Hin|Hout].
  - rewrite (size_difference X {[ v ]}) by set_solver.
    rewrite size_singleton.
    assert (size X ≠ 0)%nat; [| lia].
    intros H0%size_empty_inv. set_solver.
  - replace (X ∖ {[ v ]}) with X by set_solver. lia.
Qed.

Lemma Set_add_size s v :
  rep_inv (impl s) → Set_size (Set_add s v) = size (Set_elems s ∪ {[ v ]}).
Proof.
  intros Hs. rewrite Set_size_elems by by apply Set_add_rep_inv.
  by rewrite Set_add_elems.
Qed.

Lemma Set_remove_size s v :
  rep_inv (impl s) → Set_size (Set_remove s v) = size (Set_elems s ∖ {[ v ]}).
Proof.
  intros Hs. rewrite Set_size_elems by by apply Set_remove_rep_inv.
  by rewrite Set_remove_elems.
Qed.

Lemma SetImpl_remove_size r v :
  rep_inv r → SetImpl_size (SetImpl_remove r v) = size (elems r ∖ {[ v ]}).
Proof.
  intros Hr. rewrite rep_inv_size by by apply rep_inv_remove.
  by rewrite elems_remove.
Qed.

(** ** The band kept by [add] and [remove] *)

Lemma Set_add_policy_agrees s v :
  rep_inv (impl s) → policy_agrees s = true → policy_agrees (Set_add s v) = true.
Proof.
  intros Hs. unfold policy_agrees.
  rewrite Set_add_kind, Set_add_size by done.
  pose proof (size_insert_bounds (Set_elems s) v) as Hb.
  rewrite <- Set_size_elems in Hb by done.
  destruct (Nat.leb_spec SWITCH_THRESHOLD (Set_size s)) as [Hge|Hlt].
  - intros _. apply Nat.leb_le. lia.
  - destruct (Set_kind s); rewrite !Nat.leb_le; unfold SWITCH_THRESHOLD in *; lia.
Qed.

Lemma Set_remove_policy_agrees s v :
  rep_inv (impl s) → policy_agrees s = true →
  policy_agrees (Set_remove s v) = true.
Proof.
  intros Hs. unfold policy_agrees.
  rewrite Set_remove_kind, Set_remove_size, SetImpl_remove_size by done.
  pose proof (size_delete_bounds (Set_elems s) v) as Hb.
  rewrite <- Set_size_elems in Hb by done. unfold Set_elems in *.
  destruct (Nat.leb_spec (size (elems (impl s) ∖ {[ v ]})) SWITCH_THRESHOLD)
    as [Hle|Hgt].
  - done.
  - destruct (Set_kind s); rewrite !Nat.leb_le; unfold SWITCH_THRESHOLD in *; lia.
Qed.

Lemma Set_run_policy_agrees ops : policy_agrees (Set_run Set_new ops) = true.
Proof.
  cut (∀ s, rep_inv (impl s) → policy_agrees s = true →
            policy_agrees (Set_run s ops) = true).
  { intros H. apply H; [apply Set_new_rep_inv | done]. }
  induction ops as [|o ops IH]; intros s Hs Hp; simpl; [done |].
  destruct o as [v|v]; apply IH; simpl.
  - by apply Set_add_rep_inv.
  - by apply Set_add_policy_agrees.
  - by apply Set_remove_rep_inv.
  - by apply Set_remove_policy_agrees.
Qed.

(** ** Union and intersection of two sets *)

Lemma Set_union_with_elems A B :
  Set_elems (Set_union_with A B) = Set_elems A ∪ Set_elems B.
Proof. apply elems_union_with. Qed.

Lemma Set_intersection_with_elems A B :
  Set_elems (Set_intersection_with A B) = Set_elems A ∩ Set_elems B.
Proof. apply elems_intersection_with. Qed.

(** C2, as stated, fails on the sets of [main]: [s2.union_with(s1)] is
    Linear-active with 27 elements and [s1.intersection_with(s2)] is
    Hashed-active with 2 elements, although both operands lie in the band
    kept by [add] and [remove].  No switching policy runs on the result. *)
Lemma C2_result_outside_policy_band :
  policy_agrees main_s1 = true ∧ policy_agrees main_s2 = true
  ∧ Set_kind (Set_union_with main_s2 main_s1) = Linear
  ∧ Set_size (Set_union_with main_s2 main_s1) = 27%nat
  ∧ policy_agrees (Set_union_with main_s2 main_s1) = false
  ∧ Set_kind (Set_intersection_with main_s1 main_s2) = Hashed
  ∧ Set_size (Set_intersection_with main_s1 main_s2) = 2%nat
  ∧ policy_agrees (Set_intersection_with main_s1 main_s2) = false.
Proof. by vm_compute. Qed.

(** C2, amended: [A.union_with(B)] and [A.intersection_with(B)] build the
    result representation by delegating to the active representations and
    wrap it in a new set; no switching policy is applied to that set, so
    its active variant is always the variant of the left operand [A],
    whatever its size.  Its elements are the union, respectively the
    intersection, of the operands' elements. *)
Theorem C2_result_keeps_left_variant (A B : AdaptiveSet) :
  impl (Set_union_with A B) = SetImpl_union_with (impl A) (impl B)
  ∧ Set_kind (Set_union_with A B) = Set_kind A
  ∧ Set_elems (Set_union_with A B) = Set_elems A ∪ Set_elems B
  ∧ impl (Set_intersection_with A B)
    = SetImpl_intersection_with (impl A) (impl B)
  ∧ Set_kind (Set_intersection_with A B) = Set_kind A
  ∧ Set_elems (Set_intersection_with A B) = Set_elems A ∩ Set_elems B.
Proof.
  split; [done |]. split; [apply kind_of_union_with |].
  split; [apply Set_union_with_elems |].
  split; [done |]. split; [apply kind_of_intersection_with |].
  apply Set_intersection_with_elems.
Qed.

Lemma elems_of_kind_Hashed s :
  Set_kind s = Hashed → impl s = HashSetImpl (Set_elems s).
Proof. destruct s as [[data|data]]; [discriminate | done]. Qed.

(** C3, as stated, fails on the sets of [main]: [s1] is Hashed-active
    with exactly the elements 0..24, [s2] is Linear-active with exactly
    10, 20, 25, 30, and [s1.union_with(s2)] has 27 elements, not 26: both
    25 and 30 are new. *)
Lemma C3_union_has_27_elements :
  Set_kind main_s1 = Hashed ∧ Set_size main_s1 = 25%nat
  ∧ Set_elems main_s1 = list_to_set (upto 25)
  ∧ Set_kind main_s2 = Linear ∧ Set_size main_s2 = 4%nat
  ∧ Set_elems main_s2 = {[ 10; 20; 25; 30 ]}
  ∧ Set_size (Set_union_with main_s1 main_s2) = 27%nat
  ∧ Set_size (Set_union_with main_s1 main_s2) ≠ 26%nat.
Proof.
  repeat split; by vm_compute.
Qed.

(** C3, amended: for every [A] that is Hashed-active with exactly the
    elements 0..24 (so of size 25) and every [B] that is Linear-active with
    exactly the elements 10, 20, 25, 30 (of size 4 when stored without
    repetition), [A.union_with(B)] has size 27 and contains every element
    of [A] and every element of [B], and [A.intersection_with(B)] has size
    2 and its element set is {10, 20}. *)
Theorem C3_union_intersection_of_main_sets (A B : AdaptiveSet)
    (HkA : Set_kind A = Hashed)
    (HeA : Set_elems A = list_to_set (upto 25))
    (HkB : Set_kind B = Linear)
    (HeB : Set_elems B = {[ 10; 20; 25; 30 ]}) :
  Set_size A = 25%nat
  ∧ (rep_inv (impl B) → Set_size B = 4%nat)
  ∧ Set_size (Set_union_with A B) = 27%nat
  ∧ (∀ v, Set_contains A v = true ∨ Set_contains B v = true →
          Set_contains (Set_union_with A B) v = true)
  ∧ Set_size (Set_intersection_with A B) = 2%nat
  ∧ Set_elems (Set_intersection_with A B) = {[ 10; 20 ]}
  ∧ (∀ v, Set_contains (Set_intersection_with A B) v
          = bool_decide (v = 10 ∨ v = 20)).
Proof.
  assert (Set_elems A ∩ Set_elems B = {[ 10; 20 ]}) as Hcap.
  { rewrite HeA, HeB. apply (bool_decide_unpack _). by vm_compute. }
  assert (size (Set_elems A ∪ Set_elems B) = 27%nat) as Hcup.
  { rewrite HeA, HeB. by vm_compute. }
  pose proof (elems_of_kind_Hashed A HkA) as HA.
  split; [unfold Set_size; rewrite HA; simpl; rewrite HeA; by vm_compute |].
  split; [intros HB%Set_size_elems; rewrite HB, HeB; by vm_compute |].
  split.
  { unfold Set_size, Set_union_with; simpl. rewrite HA; simpl.
    rewrite HashSetImpl_union_with_eq. exact Hcup. }
  split.
  { intros v. rewrite !Set_contains_elems, !bool_decide_eq_true.
    rewrite Set_union_with_elems. set_solver. }
  split.
  { unfold Set_size, Set_intersection_with; simpl. rewrite HA; simpl.
    rewrite HashSetImpl_intersection_with_eq.
    change (elems (impl B)) with (Set_elems B). rewrite Hcap. by vm_compute. }
  split.
  { by rewrite Set_intersection_with_elems. }
  intros v. rewrite Set_contains_elems, Set_intersection_with_elems, Hcap.
  apply bool_decide_ext. set_solver.
Qed.

Lemma C3_on_main_sets :
  Set_size main_s1 = 25%nat
  ∧ Set_size main_s2 = 4%nat
  ∧ Set_size (Set_union_with main_s1 main_s2) = 27%nat
  ∧ Set_size (Set_intersection_with main_s1 main_s2) = 2%nat
  ∧ Set_elems (Set_intersection_with main_s1 main_s2) = {[ 10; 20 ]}.
Proof.
  assert (Set_kind main_s1 = Hashed) as HkA by (vm_compute; reflexivity).
  assert (Set_elems main_s1 = list_to_set (upto 25)) as HeA
    by (apply (bool_decide_unpack _); vm_compute; exact I).
  assert (Set_kind main_s2 = Linear) as HkB by (vm_compute; reflexivity).
  assert (Set_elems main_s2 = {[ 10; 20; 25; 30 ]}) as HeB
    by (apply (bool_decide_unpack _); vm_compute; exact I).
  assert (rep_inv (impl main_s2)) as Hinv.
  { split; [apply (bool_decide_unpack _); vm_compute; exact I
           | vm_compute; reflexivity]. }
  destruct (C3_union_intersection_of_main_sets main_s1 main_s2 HkA HeA HkB HeB)
    as (H1 & H2 & H3 & _ & H5 & H6 & _).
  exact (conj H1 (conj (H2 Hinv) (conj H3 (conj H5 H6)))).
Defined.

(** ** Down-migration *)

Lemma size_delete_present (X : gset Z) v :
  v ∈ X → S (size (X ∖ {[ v ]})) = size X.
Proof.
  intros Hin. rewrite (size_difference X {[ v ]}) by set_solver.
  rewrite size_singleton.
  assert (size X ≠ 0)%nat; [| lia].
  intros H0%size_empty_inv. set_solver.
Qed.

Lemma switch_to_vector_contains s w :
  Set_contains (switch_to_vector s) w = Set_contains s w.
Proof. by rewrite !Set_contains_elems, switch_to_vector_elems. Qed.

Lemma switch_to_vector_size s :
  rep_inv (impl s) → Set_size (switch_to_vector s) = Set_size s.
Proof.
  intros Hs. rewrite !Set_size_elems; [| done | apply switch_to_vector_rep_inv].
  by rewrite switch_to_vector_elems.
Qed.

Lemma Set_remove_contains s v w :
  Set_contains (Set_remove s v) w = Set_contains s w && negb (w =? v).
Proof.
  rewrite !Set_contains_elems, Set_remove_elems.
  destruct (Z.eqb_spec w v) as [->|Hne]; simpl.
  - rewrite andb_false_r. apply bool_decide_eq_false. set_solver.
  - rewrite andb_true_r. apply bool_decide_ext. set_solver.
Qed.

Lemma Set_add_contains s v w :
  Set_contains (Set_add s v) w = Set_contains s w || (w =? v).
Proof.
  rewrite !Set_contains_elems, Set_add_elems.
  destruct (Z.eqb_spec w v) as [->|Hne]; simpl.
  - rewrite orb_true_r. apply bool_decide_eq_true. set_solver.
  - rewrite orb_false_r. apply bool_decide_ext. set_solver.
Qed.

Lemma rep_inv_of_kind_Hashed s : Set_kind s = Hashed → rep_inv (impl s).
Proof. intros ->%elems_of_kind_Hashed. apply rep_inv_hash. Qed.

(** C5: [remove(v)] first removes [v] from the active representation; then,
    if the Hashed representation is active and the size after the removal
    is at most 20, the set migrates to Linear-active, with [contains]
    unchanged by the migration; otherwise the result is the representation
    after the removal, as it is.  In particular, removing two distinct
    present elements one at a time from a Hashed-active set of size 21
    leaves a Linear-active set of size 19 that holds exactly the remaining
    elements. *)
Theorem C5_remove_then_down_migration :
  (∀ s v,
     let removed := MkSet (SetImpl_remove (impl s) v) in
     (Set_kind s = Hashed → (Set_size removed ≤ SWITCH_THRESHOLD)%nat →
        Set_remove s v = switch_to_vector removed
        ∧ Set_kind (Set_remove s v) = Linear
        ∧ Set_size (Set_remove s v) = Set_size removed
        ∧ ∀ w, Set_contains (Set_remove s v) w = Set_contains removed w)
     ∧ (Set_kind s = Linear ∨ (SWITCH_THRESHOLD < Set_size removed)%nat →
        Set_remove s v = removed)
     ∧ ∀ w, Set_contains (Set_remove s v) w
            = Set_contains s w && negb (w =? v))
  ∧ (∀ s x y,
       Set_kind s = Hashed → Set_size s = 21%nat →
       Set_contains s x = true → Set_contains s y = true → x ≠ y →
       Set_kind (Set_remove s x) = Linear
       ∧ Set_size (Set_remove s x) = 20%nat
       ∧ Set_kind (Set_remove (Set_remove s x) y) = Linear
       ∧ Set_size (Set_remove (Set_remove s x) y) = 19%nat
       ∧ ∀ w, Set_contains (Set_remove (Set_remove s x) y) w
              = Set_contains s w && negb (w =? x) && negb (w =? y)).
Proof.
  split.
  - intros s v removed. split; [| split].
    + intros Hk Hsz.
      assert (Set_remove s v = switch_to_vector removed) as ->.
      { unfold Set_remove. fold removed.
        apply Nat.leb_le in Hsz. unfold Set_size in Hsz. rewrite Hsz.
        apply elems_of_kind_Hashed in Hk. subst removed. by rewrite Hk. }
      split; [done |]. split; [apply switch_to_vector_kind |].
      split; [| intros w; apply switch_to_vector_contains].
      apply switch_to_vector_size. subst removed; simpl.
      apply rep_inv_remove, rep_inv_of_kind_Hashed, Hk.
    + intros Hcase. unfold Set_remove. fold removed.
      destruct Hcase as [Hk|Hsz].
      * destruct s as [[data|data]]; [| discriminate].
        by rewrite andb_false_r.
      * apply Nat.leb_gt in Hsz. unfold Set_size in Hsz. by rewrite Hsz.
    + intros w. apply Set_remove_contains.
  - intros s x y Hk Hsz Hx Hy Hxy.
    pose proof (rep_inv_of_kind_Hashed s Hk) as Hinv.
    rewrite Set_contains_elems, bool_decide_eq_true in Hx, Hy.
    rewrite Set_size_elems in Hsz by done.
    pose proof (size_delete_present _ _ Hx) as H1. rewrite Hsz in H1.
    assert (y ∈ Set_elems s ∖ {[ x ]}) as Hy' by set_solver.
    pose proof (size_delete_present _ _ Hy') as H2.
    pose proof (Set_remove_rep_inv s x Hinv) as Hinv1.
    rewrite !Set_remove_kind, !SetImpl_remove_size by done.
    rewrite !Set_remove_size by done.
    fold (Set_elems (Set_remove s x)). rewrite Set_remove_elems.
    fold (Set_elems s).
    assert (size (Set_elems s ∖ {[ x ]}) = 20%nat) as -> by lia.
    assert (size (Set_elems s ∖ {[ x ]} ∖ {[ y ]}) = 19%nat) as E19 by lia.
    rewrite E19. repeat split.
    intros w. by rewrite !Set_remove_contains.
Qed.

Lemma C5_on_21_elements :
  let s := Set_add_all Set_new (upto 21) in
  Set_kind s = Hashed ∧ Set_size s = 21%nat
  ∧ Set_kind (Set_remove_all s [0; 1]) = Linear
  ∧ Set_size (Set_remove_all s [0; 1]) = 19%nat
  ∧ Set_contains (Set_remove_all s [0; 1]) 1 = false
  ∧ Set_contains (Set_remove_all s [0; 1]) 20 = true.
Proof.
  cbv zeta.
  assert (Set_kind (Set_add_all Set_new (upto 21)) = Hashed) as Hk
    by (vm_compute; reflexivity).
  assert (Set_size (Set_add_all Set_new (upto 21)) = 21%nat) as Hsz
    by (vm_compute; reflexivity).
  assert (Set_contains (Set_add_all Set_new (upto 21)) 0 = true) as H0
    by (vm_compute; reflexivity).
  assert (Set_contains (Set_add_all Set_new (upto 21)) 1 = true) as H1
    by (vm_compute; reflexivity).
  assert (0 ≠ 1) as Hne by lia.
  destruct (proj2 C5_remove_then_down_migration
              (Set_add_all Set_new (upto 21)) 0 1 Hk Hsz H0 H1 Hne)
    as (_ & _ & Hk2 & Hs2 & Hc).
  split; [exact Hk |]. split; [exact Hsz |].
  split; [exact Hk2 |]. split; [exact Hs2 |].
  split; [rewrite Hc; vm_compute; reflexivity
         | rewrite Hc; vm_compute; reflexivity].
Defined.

(** ** Idempotence *)

Lemma SetImpl_add_twice r v : SetImpl_add (SetImpl_add r v) v = SetImpl_add r v.
Proof.
  destruct r as [data|data]; simpl; f_equal.
  - unfold VectorSetImpl_add. destruct (vec_find v data) eqn:E.
    + by rewrite E.
    + assert (vec_find v (data ++ [v]) = true) as ->; [| done].
      apply vec_find_true. set_solver.
  - unfold HashSetImpl_add. set_solver.
Qed.

Lemma SetImpl_remove_absent r v :
  SetImpl_contains r v = false → SetImpl_remove r v = r.
Proof.
  destruct r as [data|data]; simpl; intros H; f_equal.
  - apply vec_erase_remove_absent, vec_find_false, H.
  - apply bool_decide_eq_false in H. unfold HashSetImpl_remove. set_solver.
Qed.

Lemma Set_remove_absent_elems s v :
  Set_contains s v = false → Set_elems (Set_remove s v) = Set_elems s.
Proof.
  rewrite Set_contains_elems, bool_decide_eq_false. intros Hv.
  rewrite Set_remove_elems. set_solver.
Qed.

Lemma Set_add_present_elems s v :
  Set_contains s v = true → Set_elems (Set_add s v) = Set_elems s.
Proof.
  rewrite Set_contains_elems, bool_decide_eq_true. intros Hv.
  rewrite Set_add_elems. set_solver.
Qed.

(** C6: [add] and [remove] are idempotent, on both representation variants
    and on the adaptive set.  On a representation a second [add(v)] changes
    nothing and [remove(v)] of an absent [v] changes nothing.  On an
    adaptive set a second [add(v)] leaves [contains] and the element set as
    after the first, and [remove(v)] of an absent [v] leaves them as they
    were; [size()] is unchanged as well, for every set whose storage holds
    no element twice, which is every set the program can build. *)
Theorem C6_idempotence :
  (∀ r v, SetImpl_add (SetImpl_add r v) v = SetImpl_add r v)
  ∧ (∀ r v, SetImpl_contains r v = false → SetImpl_remove r v = r)
  ∧ (∀ s v,
       Set_elems (Set_add (Set_add s v) v) = Set_elems (Set_add s v)
       ∧ (∀ w, Set_contains (Set_add (Set_add s v) v) w
               = Set_contains (Set_add s v) w)
       ∧ (rep_inv (impl s) →
          Set_size (Set_add (Set_add s v) v) = Set_size (Set_add s v)))
  ∧ (∀ s v,
       Set_contains s v = false →
       Set_elems (Set_remove s v) = Set_elems s
       ∧ (∀ w, Set_contains (Set_remove s v) w = Set_contains s w)
       ∧ (rep_inv (impl s) → Set_size (Set_remove s v) = Set_size s)).
Proof.
  split; [apply SetImpl_add_twice |]. split; [apply SetImpl_remove_absent |].
  split.
  - intros s v.
    assert (Set_elems (Set_add (Set_add s v) v) = Set_elems (Set_add s v)) as He.
    { rewrite !Set_add_elems. set_solver. }
    split; [done |]. split.
    + intros w. by rewrite !Set_contains_elems, He.
    + intros Hs. rewrite !Set_size_elems, He; [done | |];
        repeat apply Set_add_rep_inv; done.
  - intros s v Hv.
    pose proof (Set_remove_absent_elems s v Hv) as He.
    split; [done |]. split.
    + intros w. by rewrite !Set_contains_elems, He.
    + intros Hs. rewrite !Set_size_elems, He; [done.. |].
      by apply Set_remove_rep_inv.
Qed.

Lemma C6_on_main_sets :
  Set_size (Set_add (Set_add main_s2 7) 7) = Set_size (Set_add main_s2 7)
  ∧ Set_elems (Set_remove main_s1 99) = Set_elems main_s1
  ∧ SetImpl_remove (impl main_s2) 99 = impl main_s2.
Proof.
  assert (rep_inv (impl main_s2)) as Hinv.
  { split; [apply (bool_decide_unpack _); vm_compute; exact I
           | vm_compute; reflexivity]. }
  assert (Set_contains main_s1 99 = false) as H1 by (vm_compute; reflexivity).
  assert (SetImpl_contains (impl main_s2) 99 = false) as H2
    by (vm_compute; reflexivity).
  destruct C6_idempotence as (_ & Hrem & Hadd & Hrem').
  split; [exact (proj2 (proj2 (Hadd main_s2 7)) Hinv) |].
  split; [exact (proj1 (Hrem' main_s1 99 H1)) | exact (Hrem (impl main_s2) 99 H2)].
Defined.

(** ** Set algebra on representations *)

Lemma SetImpl_union_with_contains L R v :
  SetImpl_contains (SetImpl_union_with L R) v
  = SetImpl_contains L v || SetImpl_contains R v.
Proof.
  rewrite !contains_elems, elems_union_with.
  destruct (bool_decide (v ∈ elems L)) eqn:EL;
    destruct (bool_decide (v ∈ elems R)) eqn:ER; simpl;
    rewrite ?bool_decide_eq_true, ?bool_decide_eq_false in *; set_solver.
Qed.

Lemma SetImpl_intersection_with_contains L R v :
  SetImpl_contains (SetImpl_intersection_with L R) v
  = SetImpl_contains L v && SetImpl_contains R v.
Proof.
  rewrite !contains_elems, elems_intersection_with.
  destruct (bool_decide (v ∈ elems L)) eqn:EL;
    destruct (bool_decide (v ∈ elems R)) eqn:ER; simpl;
    rewrite ?bool_decide_eq_true, ?bool_decide_eq_false in *; set_solver.
Qed.

Lemma SetImpl_union_with_ext L R R' :
  SetImpl_get_elements R' = SetImpl_get_elements R →
  SetImpl_union_with L R' = SetImpl_union_with L R.
Proof.
  intros H. destruct L as [data|data]; simpl; f_equal.
  - unfold VectorSetImpl_union_with. by rewrite H.
  - unfold HashSetImpl_union_with. by rewrite H.
Qed.

Lemma SetImpl_intersection_with_ext L R R' :
  (∀ v, SetImpl_contains R' v = SetImpl_contains R v) →
  SetImpl_intersection_with L R' = SetImpl_intersection_with L R.
Proof.
  intros H. destruct L as [data|data]; simpl; f_equal.
  - rewrite !VectorSetImpl_intersection_with_eq. by apply filter_ext.
  - unfold HashSetImpl_intersection_with. rewrite !fold_insert_if.
    f_equal. f_equal. by apply filter_ext.
Qed.

(** C7: for representations [L] and [R] of any two variants,
    [L.union_with(R)] and [L.intersection_with(R)] are of the variant of
    [L]; their element set is the union, respectively the intersection, of
    the element sets of [L] and [R]; and they read [R] only through
    [get_elements()], respectively [contains()]: two right operands with
    the same enumeration give the same union, two with the same membership
    answers give the same intersection. *)
Theorem C7_representation_algebra (L R : SetImpl) :
  kind_of (SetImpl_union_with L R) = kind_of L
  ∧ elems (SetImpl_union_with L R) = elems L ∪ elems R
  ∧ (∀ v, SetImpl_contains (SetImpl_union_with L R) v
          = SetImpl_contains L v || SetImpl_contains R v)
  ∧ kind_of (SetImpl_intersection_with L R) = kind_of L
  ∧ elems (SetImpl_intersection_with L R) = elems L ∩ elems R
  ∧ (∀ v, SetImpl_contains (SetImpl_intersection_with L R) v
          = SetImpl_contains L v && SetImpl_contains R v)
  ∧ (∀ R', SetImpl_get_elements R' = SetImpl_get_elements R →
           SetImpl_union_with L R' = SetImpl_union_with L R)
  ∧ (∀ R', (∀ v, SetImpl_contains R' v = SetImpl_contains R v) →
           SetImpl_intersection_with L R' = SetImpl_intersection_with L R).
Proof.
  split; [apply kind_of_union_with |].
  split; [apply elems_union_with |].
  split; [intros v; apply SetImpl_union_with_contains |].
  split; [apply kind_of_intersection_with |].
  split; [apply elems_intersection_with |].
  split; [intros v; apply SetImpl_intersection_with_contains |].
  split; [intros R'; apply SetImpl_union_with_ext |].
  intros R'; apply SetImpl_intersection_with_ext.
Qed.

Lemma C7_on_mixed_variants :
  SetImpl_union_with (VectorSetImpl [1; 2; 3]) (VectorSetImpl [5; 2])
  = SetImpl_union_with (VectorSetImpl [1; 2; 3]) (HashSetImpl {[ 2; 5 ]})
  ∧ kind_of (SetImpl_union_with (VectorSetImpl [1; 2; 3]) (HashSetImpl {[ 2; 5 ]}))
    = Linear
  ∧ kind_of (SetImpl_intersection_with (HashSetImpl {[ 2; 5 ]})
                                       (VectorSetImpl [1; 2; 3]))
    = Hashed.
Proof.
  assert (SetImpl_get_elements (VectorSetImpl [5; 2])
          = SetImpl_get_elements (HashSetImpl {[ 2; 5 ]})) as H
    by (vm_compute; reflexivity).
  pose proof (C7_representation_algebra
                (VectorSetImpl [1; 2; 3]) (HashSetImpl {[ 2; 5 ]})) as C.
  pose proof (C7_representation_algebra
                (HashSetImpl {[ 2; 5 ]}) (VectorSetImpl [1; 2; 3])) as C'.
  split; [exact (proj1 (proj2 (proj2 (proj2 (proj2 (proj2 (proj2 C))))))
                   (VectorSetImpl [5; 2]) H) |].
  split; [exact (proj1 C) | exact (proj1 (proj2 (proj2 (proj2 C'))))].
Defined.

(** ** The representation invariant *)

Lemma rep_inv_clone r : rep_inv r → rep_inv (SetImpl_clone r).
Proof. by destruct r. Qed.

Lemma switch_to_hash_rep_inv s : rep_inv (impl (switch_to_hash s)).
Proof. rewrite switch_to_hash_impl. apply rep_inv_hash. Qed.

Lemma Set_union_with_rep_inv a b :
  rep_inv (impl a) → rep_inv (impl b) → rep_inv (impl (Set_union_with a b)).
Proof. apply rep_inv_union_with. Qed.

Lemma Set_intersection_with_rep_inv a b :
  rep_inv (impl a) → rep_inv (impl (Set_intersection_with a b)).
Proof. apply rep_inv_intersection_with. Qed.

Create HintDb rep_inv_db.

#[local] Hint Resolve rep_inv_hash rep_inv_add rep_inv_remove rep_inv_clone
  rep_inv_union_with rep_inv_intersection_with switch_to_hash_rep_inv
  switch_to_vector_rep_inv Set_new_rep_inv Set_add_rep_inv Set_remove_rep_inv
  Set_union_with_rep_inv Set_intersection_with_rep_inv : rep_inv_db.

Lemma reachable_rep_inv s : reachable s → rep_inv (impl s).
Proof.
  induction 1; auto with rep_inv_db.
Qed.

(** C8: both variants keep the invariant that the stored collection holds
    no element twice and that [size()] is the number of distinct elements.
    It holds of the two empty representations, it is kept by [add],
    [remove], [clone], [union_with], [intersection_with] and by both
    migrations, and so it holds of the representation owned by every set
    built through the interface of [Set]. *)
Theorem C8_representation_invariant :
  rep_inv (VectorSetImpl []) ∧ rep_inv (HashSetImpl ∅)
  ∧ (∀ r v, rep_inv r →
       rep_inv (SetImpl_add r v) ∧ rep_inv (SetImpl_remove r v)
       ∧ rep_inv (SetImpl_clone r)
       ∧ rep_inv (impl (switch_to_hash (MkSet r)))
       ∧ rep_inv (impl (switch_to_vector (MkSet r))))
  ∧ (∀ r other, rep_inv r → rep_inv other →
       rep_inv (SetImpl_union_with r other)
       ∧ rep_inv (SetImpl_intersection_with r other))
  ∧ (∀ s, reachable s →
       NoDup (SetImpl_get_elements (impl s))
       ∧ Set_size s = size (list_to_set (SetImpl_get_elements (impl s)) : gset Z)).
Proof.
  split; [apply rep_inv_vector; constructor |].
  split; [apply rep_inv_hash |].
  split.
  { intros r v Hr.
    split; [| split; [| split; [| split]]]; auto with rep_inv_db. }
  split.
  { intros r other Hr Ho. split; auto with rep_inv_db. }
  intros s Hs. by apply reachable_rep_inv.
Qed.

Lemma C8_on_main_sets :
  rep_inv (SetImpl_union_with (impl main_s2) (impl main_s1))
  ∧ rep_inv (SetImpl_add (impl main_s2) 10)
  ∧ NoDup (SetImpl_get_elements (impl (Set_remove main_s1 3))).
Proof.
  assert (rep_inv (impl main_s2)) as H2.
  { split; [apply (bool_decide_unpack _); vm_compute; exact I
           | vm_compute; reflexivity]. }
  assert (rep_inv (impl main_s1)) as H1.
  { split; [apply (bool_decide_unpack _); vm_compute; exact I
           | vm_compute; reflexivity]. }
  assert (reachable (Set_remove main_s1 3)) as Hr.
  { apply reachable_remove. unfold main_s1, Set_add_all, upto. simpl.
    repeat apply reachable_add. apply reachable_new. }
  destruct C8_representation_invariant as (_ & _ & Hone & Htwo & Hreach).
  split; [exact (proj1 (Htwo _ _ H2 H1)) |].
  split; [exact (proj1 (Hone _ 10 H2)) | exact (proj1 (Hreach _ Hr))].
Defined.

(** ** The policy runs on calls that change nothing *)

(** C10: the switching test of [remove] and of [add] runs whether or not
    the call changes the element set.  [remove(v)] of an absent [v] on a
    Hashed-active set of size at most 20 leaves it Linear-active, and
    [add(v)] of a present [v] on a Linear-active set of size at least 20
    leaves it Hashed-active; in both cases [contains] answers as before
    for every integer, and so does [size()] (for [add], on a set whose
    vector holds no element twice). *)
Theorem C10_policy_runs_on_noop_calls :
  (∀ s v,
     Set_kind s = Hashed → Set_contains s v = false →
     (Set_size s ≤ SWITCH_THRESHOLD)%nat →
     Set_kind (Set_remove s v) = Linear
     ∧ Set_size (Set_remove s v) = Set_size s
     ∧ ∀ w, Set_contains (Set_remove s v) w = Set_contains s w)
  ∧ (∀ s v,
       Set_kind s = Linear → Set_contains s v = true →
       (SWITCH_THRESHOLD ≤ Set_size s)%nat →
       Set_kind (Set_add s v) = Hashed
       ∧ (∀ w, Set_contains (Set_add s v) w = Set_contains s w)
       ∧ (rep_inv (impl s) → Set_size (Set_add s v) = Set_size s)).
Proof.
  split.
  - intros s v Hk Hv Hsz.
    pose proof (rep_inv_of_kind_Hashed s Hk) as Hinv.
    rewrite Set_remove_kind, (SetImpl_remove_absent _ _ Hv).
    apply Nat.leb_le in Hsz. unfold Set_size in *. rewrite Hsz.
    split; [done |].
    fold (Set_size (Set_remove s v)) (Set_size s).
    pose proof (Set_remove_absent_elems s v Hv) as He.
    split.
    + rewrite !Set_size_elems, He; [done.. |]. by apply Set_remove_rep_inv.
    + intros w. by rewrite !Set_contains_elems, He.
  - intros s v Hk Hv Hsz.
    rewrite Set_add_kind. apply Nat.leb_le in Hsz. rewrite Hsz.
    split; [done |].
    pose proof (Set_add_present_elems s v Hv) as He.
    split.
    + intros w. by rewrite !Set_contains_elems, He.
    + intros Hinv. rewrite !Set_size_elems, He; [done.. |].
      by apply Set_add_rep_inv.
Qed.

Lemma C10_on_20_elements :
  let lin := Set_add_all Set_new (upto 20) in
  let hsh := Set_add lin 5 in
  Set_kind lin = Linear ∧ Set_kind (Set_add lin 5) = Hashed
  ∧ Set_size (Set_add lin 5) = Set_size lin
  ∧ Set_kind hsh = Hashed ∧ Set_kind (Set_remove hsh 99) = Linear
  ∧ Set_size (Set_remove hsh 99) = Set_size hsh.
Proof.
  cbv zeta.
  assert (Set_kind (Set_add_all Set_new (upto 20)) = Linear) as HkL
    by (vm_compute; reflexivity).
  assert (Set_contains (Set_add_all Set_new (upto 20)) 5 = true) as HcL
    by (vm_compute; reflexivity).
  assert (SWITCH_THRESHOLD ≤ Set_size (Set_add_all Set_new (upto 20)))%nat
    as HsL by (vm_compute; lia).
  assert (rep_inv (impl (Set_add_all Set_new (upto 20)))) as Hinv.
  { split; [apply (bool_decide_unpack _); vm_compute; exact I
           | vm_compute; reflexivity]. }
  assert (Set_kind (Set_add (Set_add_all Set_new (upto 20)) 5) = Hashed)
    as HkH by (vm_compute; reflexivity).
  assert (Set_contains (Set_add (Set_add_all Set_new (upto 20)) 5) 99 = false)
    as HcH by (vm_compute; reflexivity).
  assert (Set_size (Set_add (Set_add_all Set_new (upto 20)) 5)
          ≤ SWITCH_THRESHOLD)%nat as HsH by (vm_compute; lia).
  destruct C10_policy_runs_on_noop_calls as [Hrem Hadd].
  destruct (Hadd _ 5 HkL HcL HsL) as (Ha1 & _ & Ha3).
  destruct (Hrem _ 99 HkH HcH HsH) as (Hr1 & Hr2 & _).
  split; [exact HkL |]. split; [exact Ha1 |]. split; [exact (Ha3 Hinv) |].
  split; [exact HkH |]. split; [exact Hr1 | exact Hr2].
Defined.

(** ** Calls on objects in a store *)

Lemma alloc_fresh (σ : gmap nat AdaptiveSet) : σ !! fresh (dom σ) = None.
Proof. apply not_elem_of_dom, is_fresh. Qed.

Lemma bind_alloc {B} s (k : nat → M B) (σ : gmap nat AdaptiveSet) :
  (alloc s ≫= k) σ = k (fresh (dom σ)) (<[fresh (dom σ) := s]> σ).
Proof. done. Qed.

Lemma bind_read {B} l s (k : AdaptiveSet → M B) (σ : gmap nat AdaptiveSet) :
  σ !! l = Some s → (read l ≫= k) σ = k s σ.
Proof. intros H. unfold mbind, M_bind, read. by rewrite H. Qed.

Lemma bind_write {B} l s s0 (k : unit → M B) (σ : gmap nat AdaptiveSet) :
  σ !! l = Some s0 → (write l s ≫= k) σ = k tt (<[l := s]> σ).
Proof. intros H. unfold mbind, M_bind, write. by rewrite H. Qed.

Lemma Set_union_with_at_builds_new (σ : gmap nat AdaptiveSet) this other A B :
  σ !! this = Some A → σ !! other = Some B →
  builds_new σ (Set_union_with_at this other σ) (Set_union_with A B).
Proof.
  intros HA HB. pose proof (alloc_fresh σ) as Hf.
  unfold Set_union_with_at. rewrite bind_alloc.
  set (l := fresh (dom σ)) in *.
  assert (l ≠ this) as Hlt by (intros ->; congruence).
  assert (l ≠ other) as Hlo by (intros ->; congruence).
  rewrite (bind_read this A) by by rewrite lookup_insert_ne.
  rewrite (bind_read other B) by by rewrite lookup_insert_ne.
  rewrite (bind_write l _ Set_new) by apply lookup_insert_eq.
  rewrite insert_insert_eq.
  exists l, (<[l := Set_union_with A B]> σ).
  split; [done |]. split; [done |]. split; [apply lookup_insert_eq |].
  intros l' Hl'. by rewrite lookup_insert_ne.
Qed.

Lemma Set_intersection_with_at_builds_new (σ : gmap nat AdaptiveSet) this other A B :
  σ !! this = Some A → σ !! other = Some B →
  builds_new σ (Set_intersection_with_at this other σ)
             (Set_intersection_with A B).
Proof.
  intros HA HB. pose proof (alloc_fresh σ) as Hf.
  unfold Set_intersection_with_at. rewrite bind_alloc.
  set (l := fresh (dom σ)) in *.
  assert (l ≠ this) as Hlt by (intros ->; congruence).
  assert (l ≠ other) as Hlo by (intros ->; congruence).
  rewrite (bind_read this A) by by rewrite lookup_insert_ne.
  rewrite (bind_read other B) by by rewrite lookup_insert_ne.
  rewrite (bind_write l _ Set_new) by apply lookup_insert_eq.
  rewrite insert_insert_eq.
  exists l, (<[l := Set_intersection_with A B]> σ).
  split; [done |]. split; [done |]. split; [apply lookup_insert_eq |].
  intros l' Hl'. by rewrite lookup_insert_ne.
Qed.

Lemma Set_add_at_spec (σ : gmap nat AdaptiveSet) this A v :
  σ !! this = Some A →
  Set_add_at this v σ = Some (tt, <[this := Set_add A v]> σ).
Proof.
  intros HA. unfold Set_add_at. rewrite (bind_read this A) by done.
  unfold write. by rewrite HA.
Qed.

Lemma Set_remove_at_spec (σ : gmap nat AdaptiveSet) this A v :
  σ !! this = Some A →
  Set_remove_at this v σ = Some (tt, <[this := Set_remove A v]> σ).
Proof.
  intros HA. unfold Set_remove_at. rewrite (bind_read this A) by done.
  unfold write. by rewrite HA.
Qed.

(** C9: [A.union_with(B)] and [A.intersection_with(B)] return a new set
    and leave both operands as they were.  In every store in which [this]
    names [A] and [other] names [B] (the same object or two objects), the
    call succeeds, the result is the union, respectively the intersection,
    at an address that named no object before, and afterwards [this] still
    names [A] and [other] still names [B]: same elements, same size, same
    active variant. *)
Theorem C9_operands_unchanged (σ : gmap nat AdaptiveSet) (this other : nat)
    (A B : AdaptiveSet)
    (HA : σ !! this = Some A) (HB : σ !! other = Some B) :
  (∃ result σ',
     Set_union_with_at this other σ = Some (result, σ')
     ∧ σ !! result = None
     ∧ σ' !! result = Some (Set_union_with A B)
     ∧ σ' !! this = Some A ∧ σ' !! other = Some B)
  ∧ (∃ result σ',
       Set_intersection_with_at this other σ = Some (result, σ')
       ∧ σ !! result = None
       ∧ σ' !! result = Some (Set_intersection_with A B)
       ∧ σ' !! this = Some A ∧ σ' !! other = Some B).
Proof.
  split.
  - destruct (Set_union_with_at_builds_new σ this other A B HA HB)
      as (result & σ' & Hrun & Hfree & Hnew & Hframe).
    exists result, σ'. repeat split; [done.. | |].
    + rewrite Hframe; [done |]. intros ->. congruence.
    + rewrite Hframe; [done |]. intros ->. congruence.
  - destruct (Set_intersection_with_at_builds_new σ this other A B HA HB)
      as (result & σ' & Hrun & Hfree & Hnew & Hframe).
    exists result, σ'. repeat split; [done.. | |].
    + rewrite Hframe; [done |]. intros ->. congruence.
    + rewrite Hframe; [done |]. intros ->. congruence.
Qed.

Lemma C9_on_main_sets :
  let σ := <[0%nat := main_s1]> (<[1%nat := main_s2]> ∅) in
  ∃ result σ',
    Set_union_with_at 0 1 σ = Some (result, σ')
    ∧ σ !! result = None
    ∧ σ' !! result = Some (Set_union_with main_s1 main_s2)
    ∧ σ' !! 0%nat = Some main_s1 ∧ σ' !! 1%nat = Some main_s2.
Proof.
  cbv zeta.
  assert ((<[0%nat := main_s1]> (<[1%nat := main_s2]> ∅) : gmap nat AdaptiveSet)
            !! 0%nat = Some main_s1) as H0 by reflexivity.
  assert ((<[0%nat := main_s1]> (<[1%nat := main_s2]> ∅) : gmap nat AdaptiveSet)
            !! 1%nat = Some main_s2) as H1 by reflexivity.
  exact (proj1 (C9_operands_unchanged _ 0%nat 1%nat main_s1 main_s2 H0 H1)).
Defined.

(** * Further properties of the code *)

(** ** The band of the switching policy *)

(** X1: whatever sequence of [add] and [remove] calls is run on a new set,
    a Linear-active result holds at most 20 elements and a Hashed-active
    result at least 20. *)
Theorem X1_policy_band (ops : list Op) :
  match Set_kind (Set_run Set_new ops) with
  | Linear => (Set_size (Set_run Set_new ops) ≤ SWITCH_THRESHOLD)%nat
  | Hashed => (SWITCH_THRESHOLD ≤ Set_size (Set_run Set_new ops))%nat
  end.
Proof.
  pose proof (Set_run_policy_agrees ops) as H. unfold policy_agrees in H.
  destruct (Set_kind (Set_run Set_new ops)); by apply Nat.leb_le.
Qed.

Lemma Set_add_new_size s v :
  rep_inv (impl s) → Set_contains s v = false →
  Set_size (Set_add s v) = S (Set_size s).
Proof.
  intros Hs Hv. rewrite Set_contains_elems, bool_decide_eq_false in Hv.
  rewrite Set_add_size, (Set_size_elems s) by done.
  rewrite size_union by set_solver. rewrite size_singleton. lia.
Qed.

Lemma Set_remove_present_size s v :
  rep_inv (impl s) → Set_contains s v = true →
  S (Set_size (Set_remove s v)) = Set_size s.
Proof.
  intros Hs Hv. rewrite Set_contains_elems, bool_decide_eq_true in Hv.
  rewrite Set_remove_size, (Set_size_elems s) by done.
  by apply size_delete_present.
Qed.

Lemma Set_remove_add_elems s v :
  Set_contains s v = false → Set_elems (Set_remove (Set_add s v) v) = Set_elems s.
Proof.
  rewrite Set_contains_elems, bool_decide_eq_false. intros Hv.
  rewrite Set_remove_elems, Set_add_elems. set_solver.
Qed.

(** X2: the one threshold serves both directions, so a set that sits at
    20 elements migrates on every call of an alternation.  From a
    Linear-active set of exactly 20 elements without [v], after any number
    of rounds [add(v); remove(v)] the set is again Linear-active with the 20
    original elements, and the next [add(v)] makes it Hashed-active with 21:
    each [add] of the alternation migrates up and each [remove] migrates
    down. *)
Theorem X2_alternation_migrates_every_call (s : AdaptiveSet) (v : Z) (n : nat)
    (Hinv : rep_inv (impl s))
    (Hk : Set_kind s = Linear)
    (Hsz : Set_size s = SWITCH_THRESHOLD)
    (Hv : Set_contains s v = false) :
  let round := fun t => Set_remove (Set_add t v) v in
  Set_kind (Nat.iter n round s) = Linear
  ∧ Set_size (Nat.iter n round s) = 20%nat
  ∧ Set_elems (Nat.iter n round s) = Set_elems s
  ∧ Set_kind (Set_add (Nat.iter n round s) v) = Hashed
  ∧ Set_size (Set_add (Nat.iter n round s) v) = 21%nat.
Proof.
  intros round.
  assert (rep_inv (impl (Nat.iter n round s))
          ∧ Set_kind (Nat.iter n round s) = Linear
          ∧ Set_size (Nat.iter n round s) = 20%nat
          ∧ Set_elems (Nat.iter n round s) = Set_elems s) as (Hi & Hkn & Hsn & Hen).
  { induction n as [|n (Hi & Hkn & Hsn & Hen)]; simpl; [done |].
    set (t := Nat.iter n round s) in *.
    assert (Set_contains t v = false) as Hvt
      by by rewrite Set_contains_elems, Hen, <- Set_contains_elems.
    pose proof (Set_add_rep_inv t v Hi) as Hia.
    pose proof (Set_add_new_size t v Hi Hvt) as Hsa.
    assert (Set_contains (Set_add t v) v = true) as Hva.
    { rewrite Set_add_contains, Z.eqb_refl. apply orb_true_r. }
    pose proof (Set_remove_present_size (Set_add t v) v Hia Hva) as Hsr.
    unfold round at 1 2 3 4. fold t.
    split; [by apply Set_remove_rep_inv |].
    split.
    - rewrite Set_remove_kind, SetImpl_remove_size by done.
      fold (Set_elems (Set_add t v)).
      rewrite <- Set_remove_size by done.
      assert ((Set_size (Set_remove (Set_add t v) v) <=? SWITCH_THRESHOLD)%nat
              = true) as ->; [| done].
      apply Nat.leb_le. unfold SWITCH_THRESHOLD. lia.
    - split; [lia |]. by rewrite Set_remove_add_elems. }
  assert (Set_contains (Nat.iter n round s) v = false) as Hvn
    by by rewrite Set_contains_elems, Hen, <- Set_contains_elems.
  repeat split; [done.. | |].
  - by rewrite Set_add_kind, Hsn.
  - rewrite Set_add_new_size by done. lia.
Qed.

Lemma X2_on_20_elements :
  Set_kind (Set_add_all Set_new (upto 20)) = Linear
  ∧ Set_kind (Set_add (Set_add_all Set_new (upto 20)) 20) = Hashed
  ∧ Set_kind (Nat.iter 3 (fun t => Set_remove (Set_add t 20) 20)
                       (Set_add_all Set_new (upto 20))) = Linear.
Proof.
  assert (rep_inv (impl (Set_add_all Set_new (upto 20)))) as Hinv.
  { split; [apply (bool_decide_unpack _); vm_compute; exact I
           | vm_compute; reflexivity]. }
  assert (Set_kind (Set_add_all Set_new (upto 20)) = Linear) as Hk
    by (vm_compute; reflexivity).
  assert (Set_size (Set_add_all Set_new (upto 20)) = SWITCH_THRESHOLD) as Hsz
    by (vm_compute; reflexivity).
  assert (Set_contains (Set_add_all Set_new (upto 20)) 20 = false) as Hv
    by (vm_compute; reflexivity).
  pose proof (X2_alternation_migrates_every_call _ 20 0 Hinv Hk Hsz Hv) as H0.
  pose proof (X2_alternation_migrates_every_call _ 20 3 Hinv Hk Hsz Hv) as H3.
  split; [exact Hk |].
  split; [exact (proj1 (proj2 (proj2 (proj2 H0)))) | exact (proj1 H3)].
Defined.

(** ** The loops of [main], for any values *)

Lemma Set_add_all_snoc s l x :
  Set_add_all s (l ++ [x]) = Set_add (Set_add_all s l) x.
Proof. unfold Set_add_all. by rewrite fold_left_app. Qed.

Lemma Set_remove_all_snoc s l x :
  Set_remove_all s (l ++ [x]) = Set_remove (Set_remove_all s l) x.
Proof. unfold Set_remove_all. by rewrite fold_left_app. Qed.

Lemma Set_add_all_rep_inv s l :
  rep_inv (impl s) → rep_inv (impl (Set_add_all s l)).
Proof.
  revert s. induction l as [|x l IH]; intros s Hs; simpl; [done |].
  by apply IH, Set_add_rep_inv.
Qed.

Lemma Set_add_all_elems s l :
  Set_elems (Set_add_all s l) = Set_elems s ∪ list_to_set l.
Proof.
  revert s. induction l as [|x l IH]; intros s; simpl; [set_solver |].
  unfold Set_add_all in *. rewrite IH, Set_add_elems. set_solver.
Qed.

Lemma Set_remove_all_rep_inv s l :
  rep_inv (impl s) → rep_inv (impl (Set_remove_all s l)).
Proof.
  revert s. induction l as [|x l IH]; intros s Hs; simpl; [done |].
  by apply IH, Set_remove_rep_inv.
Qed.

Lemma Set_remove_all_elems s l :
  Set_elems (Set_remove_all s l) = Set_elems s ∖ list_to_set l.
Proof.
  revert s. induction l as [|x l IH]; intros s; simpl; [set_solver |].
  unfold Set_remove_all in *. rewrite IH, Set_remove_elems. set_solver.
Qed.

Lemma Set_add_below_threshold s v :
  (Set_size s < SWITCH_THRESHOLD)%nat →
  Set_add s v = MkSet (SetImpl_add (impl s) v).
Proof.
  intros Hlt. unfold Set_add. apply Nat.leb_gt in Hlt.
  unfold Set_size in Hlt. by rewrite Hlt.
Qed.

(** X3: the insertion loop on any distinct values.  After inserting the
    values of a list without repetition into a new set, one at a time,
    [size()] is the length of the list and [contains] is membership in the
    list; the set is Linear-active when the list has at most 20 values and
    Hashed-active when it has more; and while it is Linear-active its
    vector is the list itself, in insertion order. *)
Theorem X3_insertion_loop (l : list Z) (Hnd : NoDup l) :
  Set_size (Set_add_all Set_new l) = length l
  ∧ (∀ v, Set_contains (Set_add_all Set_new l) v = bool_decide (v ∈ l))
  ∧ Set_kind (Set_add_all Set_new l)
    = (if (length l <=? SWITCH_THRESHOLD)%nat then Linear else Hashed)
  ∧ ((length l ≤ SWITCH_THRESHOLD)%nat →
     impl (Set_add_all Set_new l) = VectorSetImpl l).
Proof.
  pose proof (Set_add_all_rep_inv Set_new l Set_new_rep_inv) as Hinv.
  assert (Set_elems (Set_add_all Set_new l) = list_to_set l) as He.
  { rewrite Set_add_all_elems. change (Set_elems Set_new) with (∅ : gset Z).
    set_solver. }
  assert (∀ l', NoDup l' → Set_size (Set_add_all Set_new l') = length l') as Hsize.
  { intros l' Hnd'. rewrite Set_size_elems
      by apply Set_add_all_rep_inv, Set_new_rep_inv.
    rewrite Set_add_all_elems. change (Set_elems Set_new) with (∅ : gset Z).
    rewrite (left_id_L ∅ (∪)). by apply size_list_to_set. }
  split; [by apply Hsize |]. split.
  { intros v. rewrite Set_contains_elems, He. apply bool_decide_ext.
    apply elem_of_list_to_set. }
  clear Hinv He. induction l as [|x l IH] using rev_ind; [done |].
  apply NoDup_app in Hnd as (Hndl & Hx & _).
  destruct (IH Hndl) as [IHk IHv]. clear IH.
  rewrite Set_add_all_snoc, length_app.
  change (length [x]) with 1%nat.
  split.
  - rewrite Set_add_kind, (Hsize l Hndl), IHk. unfold SWITCH_THRESHOLD.
    destruct (Nat.leb_spec 20 (length l)), (Nat.leb_spec (length l) 20),
      (Nat.leb_spec (length l + 1) 20); done || lia.
  - intros Hlen.
    rewrite Set_add_below_threshold by (rewrite (Hsize l Hndl); lia).
    cbn [impl]. rewrite IHv by lia.
    simpl. unfold VectorSetImpl_add.
    assert (vec_find x l = false) as ->; [| done].
    apply vec_find_false. intros Hin. apply (Hx x Hin). left.
Qed.

Lemma X3_on_four_values :
  Set_size (Set_add_all Set_new [10; 20; 25; 30]) = 4%nat
  ∧ Set_kind (Set_add_all Set_new [10; 20; 25; 30]) = Linear
  ∧ impl (Set_add_all Set_new [10; 20; 25; 30]) = VectorSetImpl [10; 20; 25; 30].
Proof.
  assert (NoDup [10; 20; 25; 30]) as Hnd
    by (apply (bool_decide_unpack _); vm_compute; exact I).
  assert (length [10; 20; 25; 30] ≤ SWITCH_THRESHOLD)%nat as Hlen
    by (vm_compute; lia).
  destruct (X3_insertion_loop [10; 20; 25; 30] Hnd) as (H1 & _ & H3 & H4).
  split; [exact H1 |]. split; [exact H3 | exact (H4 Hlen)].
Defined.

(** X4: the removal loop on any distinct present values.  Removing, one at
    a time, distinct values that are present from a Hashed-active set of
    more than 20 elements takes [size()] down by one per call and removes
    exactly those values; the set is Hashed-active as long as more than 20
    elements are left and Linear-active from the call that leaves 20. *)
Theorem X4_removal_loop (s : AdaptiveSet) (l : list Z)
    (Hk : Set_kind s = Hashed)
    (Hsz : (SWITCH_THRESHOLD < Set_size s)%nat)
    (Hnd : NoDup l)
    (Hin : ∀ v, v ∈ l → Set_contains s v = true) :
  Set_size (Set_remove_all s l) = (Set_size s - length l)%nat
  ∧ (length l ≤ Set_size s)%nat
  ∧ (∀ v, Set_contains (Set_remove_all s l) v
          = Set_contains s v && negb (bool_decide (v ∈ l)))
  ∧ Set_kind (Set_remove_all s l)
    = (if (Set_size s - length l <=? SWITCH_THRESHOLD)%nat
       then Linear else Hashed).
Proof.
  pose proof (rep_inv_of_kind_Hashed s Hk) as Hinv.
  assert (∀ l', NoDup l' → (∀ v, v ∈ l' → Set_contains s v = true) →
            Set_size (Set_remove_all s l') = (Set_size s - length l')%nat
            ∧ (length l' ≤ Set_size s)%nat) as Hsize.
  { intros l' Hnd' Hin'.
    assert ((list_to_set l' : gset Z) ⊆ Set_elems s) as Hsub.
    { intros v Hv%elem_of_list_to_set. apply Hin' in Hv.
      by rewrite Set_contains_elems, bool_decide_eq_true in Hv. }
    rewrite Set_size_elems by by apply Set_remove_all_rep_inv.
    rewrite Set_remove_all_elems, (Set_size_elems s) by done.
    rewrite size_difference by done.
    rewrite <- (size_list_to_set (C := gset Z) l') by done.
    split; [done |]. by apply subseteq_size. }
  destruct (Hsize l Hnd Hin) as [Hs1 Hs2].
  split; [done |]. split; [done |]. split.
  { intros v. rewrite !Set_contains_elems, Set_remove_all_elems.
    destruct (bool_decide (v ∈ Set_elems s)) eqn:E1;
      destruct (bool_decide (v ∈ l)) eqn:E2; simpl;
      rewrite ?bool_decide_eq_true, ?bool_decide_eq_false in *; set_solver. }
  clear Hs1 Hs2. induction l as [|x l IH] using rev_ind.
  { simpl. rewrite Hk. rewrite Nat.sub_0_r.
    by apply Nat.leb_gt in Hsz as ->. }
  apply NoDup_app in Hnd as (Hndl & Hx & _).
  assert (∀ v, v ∈ l → Set_contains s v = true) as Hinl.
  { intros v Hv. apply Hin. set_solver. }
  assert (NoDup (l ++ [x])) as Hndx.
  { apply NoDup_app. split; [done |]. split; [done | apply NoDup_singleton]. }
  destruct (Hsize l Hndl Hinl) as [Hl1 Hl2].
  destruct (Hsize (l ++ [x]) Hndx Hin) as [Hx1 Hx2].
  rewrite length_app in *. simpl in *.
  rewrite Set_remove_all_snoc in *.
  rewrite Set_remove_kind, (IH Hndl Hinl).
  rewrite SetImpl_remove_size by by apply Set_remove_all_rep_inv.
  fold (Set_elems (Set_remove_all s l)).
  rewrite <- Set_remove_size by by apply Set_remove_all_rep_inv.
  rewrite Hx1. unfold SWITCH_THRESHOLD in *.
  destruct (Nat.leb_spec (Set_size s - (length l + 1)) 20),
    (Nat.leb_spec (Set_size s - length l) 20); done || lia.
Qed.

Lemma X4_on_main_removals :
  Set_size (Set_remove_all main_s1 (upto 6)) = 19%nat
  ∧ Set_kind (Set_remove_all main_s1 (upto 6)) = Linear
  ∧ Set_kind (Set_remove_all main_s1 (upto 4)) = Hashed.
Proof.
  assert (Set_kind main_s1 = Hashed) as Hk by (vm_compute; reflexivity).
  assert (SWITCH_THRESHOLD < Set_size main_s1)%nat as Hsz by (vm_compute; lia).
  assert (NoDup (upto 6)) as Hnd6
    by (apply (bool_decide_unpack _); vm_compute; exact I).
  assert (NoDup (upto 4)) as Hnd4
    by (apply (bool_decide_unpack _); vm_compute; exact I).
  assert (∀ v, v ∈ upto 6 → Set_contains main_s1 v = true) as Hin6.
  { apply Forall_forall. apply (bool_decide_unpack _). vm_compute. exact I. }
  assert (∀ v, v ∈ upto 4 → Set_contains main_s1 v = true) as Hin4.
  { apply Forall_forall. apply (bool_decide_unpack _). vm_compute. exact I. }
  destruct (X4_removal_loop main_s1 (upto 6) Hk Hsz Hnd6 Hin6) as (H1 & _ & _ & H3).
  destruct (X4_removal_loop main_s1 (upto 4) Hk Hsz Hnd4 Hin4) as (_ & _ & _ & H4).
  split; [exact H1 |]. split; [exact H3 | exact H4].
Defined.

(** ** Lookup after [add] and [remove], and the count *)

(** X5: on every set, whatever its variant and whether or not the call
    migrates it, [add(v)] makes [v] a member and changes the answer of
    [contains] for no other value, and a following [remove(v)] makes [v]
    absent again and leaves every other answer as it was before the
    [add]. *)
Theorem X5_lookup_after_add (s : AdaptiveSet) (v w : Z) :
  Set_contains (Set_add s v) v = true
  ∧ Set_contains (Set_add s v) w = Set_contains s w || (w =? v)
  ∧ Set_contains (Set_remove (Set_add s v) v) v = false
  ∧ Set_contains (Set_remove (Set_add s v) v) w
    = Set_contains s w && negb (w =? v).
Proof.
  split; [rewrite Set_add_contains, Z.eqb_refl; apply orb_true_r |].
  split; [apply Set_add_contains |].
  split.
  - rewrite Set_remove_contains, Z.eqb_refl. apply andb_false_r.
  - rewrite Set_remove_contains, Set_add_contains.
    destruct (Set_contains s w), (w =? v); done.
Qed.

(** X6: on a set whose storage holds no value twice, [add(v)] raises
    [size()] by one when [v] was absent and leaves it when [v] was present;
    [remove(v)] lowers it by one when [v] was present and leaves it when
    [v] was absent.  This holds across migrations. *)
Theorem X6_size_after_add_remove (s : AdaptiveSet) (v : Z)
    (Hinv : rep_inv (impl s)) :
  Set_size (Set_add s v)
  = (if Set_contains s v then Set_size s else S (Set_size s))
  ∧ Set_size (Set_remove s v)
    = (if Set_contains s v then Nat.pred (Set_size s) else Set_size s).
Proof.
  destruct (Set_contains s v) eqn:Hv; split.
  - rewrite !Set_size_elems by by (try apply Set_add_rep_inv).
    by rewrite Set_add_present_elems.
  - pose proof (Set_remove_present_size s v Hinv Hv). lia.
  - by apply Set_add_new_size.
  - rewrite !Set_size_elems by by (try apply Set_remove_rep_inv).
    by rewrite Set_remove_absent_elems.
Qed.

Lemma X6_on_main_sets :
  Set_size (Set_add main_s2 7) = 5%nat
  ∧ Set_size (Set_add main_s2 10) = 4%nat
  ∧ Set_size (Set_remove main_s1 24) = 24%nat
  ∧ Set_size (Set_remove main_s1 25) = 25%nat.
Proof.
  assert (rep_inv (impl main_s2)) as H2.
  { split; [apply (bool_decide_unpack _); vm_compute; exact I
           | vm_compute; reflexivity]. }
  assert (rep_inv (impl main_s1)) as H1.
  { split; [apply (bool_decide_unpack _); vm_compute; exact I
           | vm_compute; reflexivity]. }
  split; [exact (proj1 (X6_size_after_add_remove main_s2 7 H2)) |].
  split; [exact (proj1 (X6_size_after_add_remove main_s2 10 H2)) |].
  split; [exact (proj2 (X6_size_after_add_remove main_s1 24 H1))
         | exact (proj2 (X6_size_after_add_remove main_s1 25 H1))].
Defined.

(** ** Counting union and intersection *)

Lemma size_union_intersection (X Y : gset Z) :
  (size (X ∪ Y) + size (X ∩ Y) = size X + size Y)%nat.
Proof.
  rewrite size_union_alt.
  assert (size Y = size (Y ∖ X) + size (X ∩ Y))%nat as ->; [| lia].
  rewrite <- size_union by set_solver. f_equal.
  apply set_eq. intros x. destruct (decide (x ∈ X)); set_solver.
Qed.

(** X7: for two sets whose storage holds no value twice, the sizes of
    [A.union_with(B)] and [A.intersection_with(B)] add up to the sizes of
    [A] and [B]; the union is at least as large as either operand and the
    intersection at most as large as either. *)
Theorem X7_union_intersection_sizes (A B : AdaptiveSet)
    (HA : rep_inv (impl A)) (HB : rep_inv (impl B)) :
  (Set_size (Set_union_with A B) + Set_size (Set_intersection_with A B)
   = Set_size A + Set_size B)%nat
  ∧ (Set_size A ≤ Set_size (Set_union_with A B))%nat
  ∧ (Set_size B ≤ Set_size (Set_union_with A B))%nat
  ∧ (Set_size (Set_intersection_with A B) ≤ Set_size A)%nat
  ∧ (Set_size (Set_intersection_with A B) ≤ Set_size B)%nat.
Proof.
  rewrite (Set_size_elems (Set_union_with A B))
    by by apply Set_union_with_rep_inv.
  rewrite (Set_size_elems (Set_intersection_with A B))
    by by apply Set_intersection_with_rep_inv.
  rewrite (Set_size_elems A), (Set_size_elems B) by done.
  rewrite Set_union_with_elems, Set_intersection_with_elems.
  split; [apply size_union_intersection |].
  repeat split; apply subseteq_size; set_solver.
Qed.

Lemma X7_on_main_sets :
  (Set_size (Set_union_with main_s1 main_s2)
   + Set_size (Set_intersection_with main_s1 main_s2)
   = Set_size main_s1 + Set_size main_s2)%nat.
Proof.
  assert (rep_inv (impl main_s2)) as H2.
  { split; [apply (bool_decide_unpack _); vm_compute; exact I
           | vm_compute; reflexivity]. }
  assert (rep_inv (impl main_s1)) as H1.
  { split; [apply (bool_decide_unpack _); vm_compute; exact I
           | vm_compute; reflexivity]. }
  exact (proj1 (X7_union_intersection_sizes main_s1 main_s2 H1 H2)).
Defined.

(** ** Union and intersection with the set itself and with an empty set *)

Lemma List_filter_none (p : Z → bool) (l : list Z) :
  (∀ x, x ∈ l → p x = false) → List.filter p l = [].
Proof.
  induction l as [|x l IH]; intros H; simpl; [done |].
  rewrite (H x) by left. apply IH. intros y Hy. apply H. by right.
Qed.

Lemma List_filter_all (p : Z → bool) (l : list Z) :
  (∀ x, x ∈ l → p x = true) → List.filter p l = l.
Proof.
  induction l as [|x l IH]; intros H; simpl; [done |].
  rewrite (H x) by left. f_equal. apply IH. intros y Hy. apply H. by right.
Qed.


(** ** Storage order of the vector representation *)

Lemma List_filter_sublist (p : Z → bool) (l : list Z) :
  List.filter p l `sublist_of` l.
Proof.
  induction l as [|x l IH]; simpl; [done |].
  destruct (p x); [by apply sublist_skip | by apply sublist_cons].
Qed.

Lemma vec_erase_remove_sublist value data :
  vec_erase_remove value data `sublist_of` data.
Proof.
  induction data as [|x l IH]; simpl; [done |].
  destruct (x =? value); [by apply sublist_cons | by apply sublist_skip].
Qed.

(** X9: the vector representation never reorders what it holds.  [add]
    and [union_with] keep the stored sequence as a prefix of the new one,
    and what [union_with] appends is taken from the enumeration of the
    other operand in its order; [remove] and [intersection_with] leave a
    subsequence of the stored sequence. *)
Theorem X9_vector_keeps_insertion_order (data : list Z) (other : SetImpl)
    (v : Z) :
  data `prefix_of` VectorSetImpl_add data v
  ∧ VectorSetImpl_remove data v `sublist_of` data
  ∧ (∃ appended,
       VectorSetImpl_union_with data other = data ++ appended
       ∧ appended `sublist_of` SetImpl_get_elements other
       ∧ ∀ x, x ∈ appended ↔ x ∈ SetImpl_get_elements other ∧ x ∉ data)
  ∧ VectorSetImpl_intersection_with data other `sublist_of` data.
Proof.
  split.
  { unfold VectorSetImpl_add. destruct (vec_find v data); [done |].
    by apply prefix_app_r. }
  split; [apply vec_erase_remove_sublist |].
  split.
  - eexists. split; [apply VectorSetImpl_union_with_eq |].
    split; [apply List_filter_sublist |].
    intros x. rewrite elem_of_List_filter. unfold VectorSetImpl_contains.
    by rewrite negb_true_iff, vec_find_false.
  - rewrite VectorSetImpl_intersection_with_eq. apply List_filter_sublist.
Qed.

(** ** Migration there and back *)



(** ** Direction of the migrations *)

Lemma length_VectorSetImpl_add data v :
  (length (VectorSetImpl_add data v) ≤ S (length data))%nat.
Proof.
  unfold VectorSetImpl_add. destruct (vec_find v data); [lia |].
  rewrite length_app. simpl. lia.
Qed.

(** X11: [add] only ever migrates up and [remove] only ever migrates down.
    A Hashed-active set stays Hashed-active under [add], a Linear-active
    set stays Linear-active under [remove].  A set that is Linear-active
    after [add] was Linear-active before and holds at most 20 elements; a
    set that is Hashed-active after [remove] was Hashed-active before and
    holds more than 20. *)
Theorem X11_direction_of_migration (s : AdaptiveSet) (v : Z) :
  (Set_kind s = Hashed → Set_kind (Set_add s v) = Hashed)
  ∧ (Set_kind s = Linear → Set_kind (Set_remove s v) = Linear)
  ∧ (Set_kind (Set_add s v) = Linear →
     Set_kind s = Linear ∧ (Set_size (Set_add s v) ≤ SWITCH_THRESHOLD)%nat)
  ∧ (Set_kind (Set_remove s v) = Hashed →
     Set_kind s = Hashed ∧ (SWITCH_THRESHOLD < Set_size (Set_remove s v))%nat).
Proof.
  split; [| split; [| split]].
  - intros Hk. rewrite Set_add_kind, Hk. by destruct (_ <=? _)%nat.
  - intros Hk. rewrite Set_remove_kind, Hk. by destruct (_ <=? _)%nat.
  - rewrite Set_add_kind.
    destruct (Nat.leb_spec SWITCH_THRESHOLD (Set_size s)) as [|Hlt];
      [discriminate |].
    intros Hk. split; [done |].
    rewrite Set_add_below_threshold by done.
    destruct s as [[data|data]]; [| discriminate].
    unfold Set_size in *. simpl in *.
    pose proof (length_VectorSetImpl_add data v). lia.
  - rewrite Set_remove_kind.
    destruct (Nat.leb_spec (SetImpl_size (SetImpl_remove (impl s) v))
                SWITCH_THRESHOLD) as [|Hgt]; [discriminate |].
    intros Hk. split; [done |].
    unfold Set_remove. apply Nat.leb_gt in Hgt as Hb.
    cbn [impl]. rewrite Hb. done.
Qed.

Lemma X11_on_main_sets :
  Set_kind (Set_add main_s1 99) = Hashed
  ∧ Set_kind (Set_remove main_s2 10) = Linear
  ∧ (Set_size (Set_add main_s2 99) ≤ SWITCH_THRESHOLD)%nat
  ∧ (SWITCH_THRESHOLD < Set_size (Set_remove main_s1 0))%nat.
Proof.
  assert (Set_kind main_s1 = Hashed) as H1 by (vm_compute; reflexivity).
  assert (Set_kind main_s2 = Linear) as H2 by (vm_compute; reflexivity).
  assert (Set_kind (Set_add main_s2 99) = Linear) as H3
    by (vm_compute; reflexivity).
  assert (Set_kind (Set_remove main_s1 0) = Hashed) as H4
    by (vm_compute; reflexivity).
  split; [exact (proj1 (X11_direction_of_migration main_s1 99) H1) |].
  split; [exact (proj1 (proj2 (X11_direction_of_migration main_s2 10)) H2) |].
  split.
  - exact (proj2 (proj1 (proj2 (proj2 (X11_direction_of_migration main_s2 99))) H3)).
  - exact (proj2 (proj2 (proj2 (proj2 (X11_direction_of_migration main_s1 0))) H4)).
Defined.

(** ** The two representations behind one interface *)

Lemma SetImpl_run_elems r ops :
  elems (SetImpl_run r ops) = ref_run (elems r) ops.
Proof.
  revert r. induction ops as [|o ops IH]; intros r; simpl; [done |].
  unfold SetImpl_run, ref_run in *; simpl. rewrite IH. f_equal.
  destruct o; simpl; [apply elems_add | apply elems_remove].
Qed.

Lemma SetImpl_run_rep_inv r ops : rep_inv r → rep_inv (SetImpl_run r ops).
Proof.
  revert r. induction ops as [|o ops IH]; intros r Hr; simpl; [done |].
  apply IH. destruct o; simpl; [by apply rep_inv_add | by apply rep_inv_remove].
Qed.

Lemma SetImpl_run_kind r ops : kind_of (SetImpl_run r ops) = kind_of r.
Proof.
  revert r. induction ops as [|o ops IH]; intros r; simpl; [done |].
  unfold SetImpl_run in *; simpl. rewrite IH.
  destruct o; simpl; [apply kind_of_add | apply kind_of_remove].
Qed.

(** X12: the variant cannot be told from the answers.  Run the same
    sequence of [add] and [remove] calls on an empty vector representation,
    on an empty hash representation and on a new adaptive set: the first
    stays a vector and the second a hash set, and all three give the same
    [contains(v)] for every [v] and the same [size()]. *)
Theorem X12_representation_transparency (ops : list Op) (v : Z) :
  kind_of (SetImpl_run (VectorSetImpl []) ops) = Linear
  ∧ kind_of (SetImpl_run (HashSetImpl ∅) ops) = Hashed
  ∧ SetImpl_contains (SetImpl_run (VectorSetImpl []) ops) v
    = SetImpl_contains (SetImpl_run (HashSetImpl ∅) ops) v
  ∧ SetImpl_size (SetImpl_run (VectorSetImpl []) ops)
    = SetImpl_size (SetImpl_run (HashSetImpl ∅) ops)
  ∧ Set_contains (Set_run Set_new ops) v
    = SetImpl_contains (SetImpl_run (HashSetImpl ∅) ops) v
  ∧ Set_size (Set_run Set_new ops)
    = SetImpl_size (SetImpl_run (HashSetImpl ∅) ops).
Proof.
  split; [apply SetImpl_run_kind |]. split; [apply SetImpl_run_kind |].
  assert (rep_inv (VectorSetImpl [])) as Hv by (apply rep_inv_vector; constructor).
  pose proof (rep_inv_hash ∅) as Hh.
  rewrite Set_contains_elems, !contains_elems.
  rewrite Set_size_elems by apply Set_run_rep_inv, Set_new_rep_inv.
  rewrite !rep_inv_size by by apply SetImpl_run_rep_inv.
  rewrite Set_run_elems, !SetImpl_run_elems. done.
Qed.

(** ** Exchanging and regrouping operands *)



(** ** What [print] shows *)

Lemma plain_pretty_N_go x s : plain s → plain (pretty_N_go x s).
Proof.
  revert s. induction (N.lt_wf_0 x) as [x _ IH]; intros s Hs.
  assert (x = 0 ∨ 0 < x)%N as [->|Hpos] by lia.
  - by rewrite pretty_N_go_0.
  - rewrite pretty_N_go_step by done. apply IH.
    { by apply N.div_lt. }
    split; [| done].
    unfold plain_char, pretty_N_char. by repeat case_match.
Qed.

Lemma plain_pretty_N (x : N) : plain (pretty x).
Proof.
  unfold pretty, pretty_N. case_decide.
  - by repeat split.
  - by apply plain_pretty_N_go.
Qed.

Lemma plain_pretty_Z (z : Z) : plain (pretty z).
Proof.
  destruct z as [|p|p]; unfold pretty, pretty_Z.
  - by repeat split.
  - apply (plain_pretty_N (N.pos p)).
  - split; [by repeat split |]. apply (plain_pretty_N (N.pos p)).
Qed.

Lemma string_app_assoc (a b c : string) : (a +:+ b) +:+ c = a +:+ (b +:+ c).
Proof.
  induction a as [|x a IH]; [done |].
  change (String x ((a +:+ b) +:+ c) = String x (a +:+ (b +:+ c))).
  by rewrite IH.
Qed.

Lemma string_app_nil_r (a : string) : a +:+ "" = a.
Proof.
  induction a as [|x a IH]; [done |].
  change (String x (a +:+ "") = String x a). by rewrite IH.
Qed.

Lemma print_elements_fold (values : list Z) (out : string) :
  fold_left (fun out v => out +:+ pretty v +:+ " ") values out
  = out +:+ print_elements values.
Proof.
  unfold print_elements. revert out.
  induction values as [|v l IH]; intros out; simpl.
  - by rewrite string_app_nil_r.
  - rewrite IH, (IH ("" +:+ pretty v +:+ " ")).
    change ("" +:+ pretty v +:+ " ") with (pretty v +:+ " ").
    by rewrite !string_app_assoc.
Qed.

Lemma print_elements_cons v (l : list Z) :
  print_elements (v :: l) = pretty v +:+ " " +:+ print_elements l.
Proof.
  unfold print_elements at 1. simpl. rewrite print_elements_fold.
  change ("" +:+ pretty v +:+ " ") with (pretty v +:+ " ").
  by rewrite string_app_assoc.
Qed.

(** A written value ends at the first separator. *)
Lemma token_split (a b s s' : string) :
  plain a → plain b →
  a +:+ " " +:+ s = b +:+ " " +:+ s' → a = b ∧ s = s'.
Proof.
  revert b. induction a as [|x a IH]; intros [|y b] Ha Hb H.
  - by injection H.
  - injection H as Hc _. destruct Hb as [[Hy _] _]. congruence.
  - injection H as Hc _. destruct Ha as [[Hx _] _]. congruence.
  - injection H as Hc H. destruct Ha as [_ Ha], Hb as [_ Hb].
    destruct (IH b Ha Hb H) as [-> ->]. by rewrite Hc.
Qed.

Lemma print_elements_inj (l l' : list Z) (close : ascii) (tail : string) :
  close = "]"%char ∨ close = "}"%char →
  print_elements l +:+ String close tail
  = print_elements l' +:+ String close tail →
  l = l'.
Proof.
  intros Hclose. revert l'.
  assert (∀ v k, print_elements (v :: k) +:+ String close tail
                 ≠ String close tail) as Hne.
  { intros v k H. rewrite print_elements_cons, !string_app_assoc in H.
    pose proof (plain_pretty_Z v) as Hp.
    destruct (pretty v) as [|c rest].
    - injection H as Hc _. destruct Hclose; subst; discriminate.
    - injection H as Hc _. destruct Hp as [(_ & H1 & H2) _].
      destruct Hclose; congruence. }
  induction l as [|v l IH]; intros [|v' l'] H.
  - done.
  - symmetry in H. by apply Hne in H.
  - by apply Hne in H.
  - rewrite !print_elements_cons, !string_app_assoc in H.
    apply token_split in H as [Hv H]; [| apply plain_pretty_Z..].
    apply (inj pretty) in Hv as ->. f_equal. by apply IH.
Qed.

Lemma SetImpl_size_get_elements r :
  SetImpl_size r = length (SetImpl_get_elements r).
Proof. by destruct r. Qed.

(** X14: the line written by [print] tells the state apart.  Two sets
    that print the same line are of the same variant and enumerate the
    same values in the same order; so they answer [contains] alike for
    every value and have the same [size()]. *)
Theorem X14_print_determines_state (s s' : AdaptiveSet)
    (Hprint : Set_print s = Set_print s') :
  Set_kind s = Set_kind s'
  ∧ SetImpl_get_elements (impl s) = SetImpl_get_elements (impl s')
  ∧ (∀ v, Set_contains s v = Set_contains s' v)
  ∧ Set_size s = Set_size s'.
Proof.
  assert (Set_kind s = Set_kind s'
          ∧ SetImpl_get_elements (impl s) = SetImpl_get_elements (impl s'))
    as [Hk He].
  { destruct s as [[d|d]], s' as [[d'|d']]; unfold Set_print in Hprint;
      cbn [impl SetImpl_print] in Hprint;
      unfold VectorSetImpl_print, HashSetImpl_print in Hprint;
      try (by injection Hprint).
    - apply (inj (String.app "VectorSet[ ")) in Hprint.
      apply print_elements_inj in Hprint; [| by left]. by subst.
    - apply (inj (String.app "HashSet{ ")) in Hprint.
      apply print_elements_inj in Hprint; [| by right]. done. }
  split; [done |]. split; [done |].
  assert (Set_elems s = Set_elems s') as Hs.
  { unfold Set_elems. by rewrite <- !elems_get_elements, He. }
  split; [intros v; by rewrite !Set_contains_elems, Hs |].
  unfold Set_size. by rewrite !SetImpl_size_get_elements, He.
Qed.

Lemma X14_on_repeated_add :
  Set_kind (Set_add main_s2 30) = Set_kind main_s2
  ∧ Set_size (Set_add main_s2 30) = Set_size main_s2.
Proof.
  assert (Set_print (Set_add main_s2 30) = Set_print main_s2) as H
    by (vm_compute; reflexivity).
  destruct (X14_print_determines_state _ _ H) as (Hk & _ & _ & Hs).
  split; [exact Hk | exact Hs].
Defined.

(** ** How often a run migrates *)

Lemma count_switches_adds_Hashed s ops :
  forallb is_add ops = true → Set_kind s = Hashed →
  count_switches (Set_kind s) (map Set_kind (Set_trace s ops)) = 0%nat.
Proof.
  revert s. induction ops as [|[v|v] ops IH]; intros s Hops Hk; simpl in *;
    [done | | discriminate].
  assert (Set_kind (Set_add s v) = Hashed) as Hk'.
  { rewrite Set_add_kind, Hk. by destruct (_ <=? _)%nat. }
  rewrite IH by done. rewrite Hk, Hk'. by rewrite decide_True.
Qed.

Lemma count_switches_removes_Linear s ops :
  forallb is_remove ops = true → Set_kind s = Linear →
  count_switches (Set_kind s) (map Set_kind (Set_trace s ops)) = 0%nat.
Proof.
  revert s. induction ops as [|[v|v] ops IH]; intros s Hops Hk; simpl in *;
    [done | discriminate |].
  assert (Set_kind (Set_remove s v) = Linear) as Hk'.
  { rewrite Set_remove_kind, Hk. by destruct (_ <=? _)%nat. }
  rewrite IH by done. rewrite Hk, Hk'. by rewrite decide_True.
Qed.

(** X15: a run of [add] calls alone migrates at most once, from any
    starting set, and so does a run of [remove] calls alone: along the
    states after each call the variant changes at most one time. *)
Theorem X15_one_way_runs_migrate_once (s : AdaptiveSet) (ops : list Op) :
  (forallb is_add ops = true →
   (count_switches (Set_kind s) (map Set_kind (Set_trace s ops)) ≤ 1)%nat)
  ∧ (forallb is_remove ops = true →
     (count_switches (Set_kind s) (map Set_kind (Set_trace s ops)) ≤ 1)%nat).
Proof.
  split.
  - revert s. induction ops as [|[v|v] ops IH]; intros s Hops; simpl in *;
      [lia | | discriminate].
    destruct (Set_kind s) eqn:Hk.
    + destruct (Set_kind (Set_add s v)) eqn:Hk'.
      * rewrite decide_True by done. rewrite <- Hk'. by apply IH.
      * rewrite decide_False by done. rewrite <- Hk'.
        rewrite count_switches_adds_Hashed by done. lia.
    + pose proof (count_switches_adds_Hashed s (OpAdd v :: ops) Hops Hk) as H.
      simpl in H. rewrite Hk in H. lia.
  - revert s. induction ops as [|[v|v] ops IH]; intros s Hops; simpl in *;
      [lia | discriminate |].
    destruct (Set_kind s) eqn:Hk.
    + pose proof (count_switches_removes_Linear s (OpRemove v :: ops) Hops Hk)
        as H.
      simpl in H. rewrite Hk in H. lia.
    + destruct (Set_kind (Set_remove s v)) eqn:Hk'.
      * rewrite decide_False by done. rewrite <- Hk'.
        rewrite count_switches_removes_Linear by done. lia.
      * rewrite decide_True by done. rewrite <- Hk'. by apply IH.
Qed.

Lemma X15_on_main_loops :
  (count_switches Linear
     (map Set_kind (Set_trace Set_new (map OpAdd (upto 25)))) ≤ 1)%nat
  ∧ (count_switches Hashed
       (map Set_kind (Set_trace main_s1 (map OpRemove (upto 20)))) ≤ 1)%nat.
Proof.
  assert (forallb is_add (map OpAdd (upto 25)) = true) as Ha
    by (vm_compute; reflexivity).
  assert (forallb is_remove (map OpRemove (upto 20)) = true) as Hr
    by (vm_compute; reflexivity).
  split.
  - exact (proj1 (X15_one_way_runs_migrate_once Set_new _) Ha).
  - exact (proj2 (X15_one_way_runs_migrate_once main_s1 _) Hr).
Defined.

(** ** Enumeration, membership and count *)

